(** * Backblaze drive statistics: ingestion, folding and reduction

    A shallow embedding of the rapidcsv variant of [backblaze.cpp]
    ([ReadDate], [ReadId], [ReadCapacity], [UpdateCapacity],
    [UpdateFailureDate], [ReadRawStats], [MakeParsedStatsHeader],
    [MakeParsedStatsRow], [WriteParsedStats], [MergeParsedStats]) together
    with [util::ToInt], [util::ToString], the work-queue lambda
    [get_next_file_path], and the workers and the final reduction of
    [ParseRawStats] from the header.

    Modelling choices:
    - [ankerl::unordered_dense::map] is a [gmap]; its iteration order only
      matters for the order of output rows and of log lines, and no
      iteration in [ReadRawStats] or [MergeParsedStats] lets one key
      influence another.
    - [uint64_t] values are [Z] with their wrap-around written out.
    - a rapidcsv [GetCell<T>] conversion is an [option Z]: [None] is the
      value for which the converter throws.
    - the in-place mutation of the [ModelMap] together with C++ exceptions
      is a state-and-error monad [M]: when an exception is thrown the map
      keeps every mutation made before the throw. *)

From Stdlib Require Import ZArith Lia String Ascii.
From stdpp Require Import base gmap list strings pretty.

Open Scope Z_scope.

(** ** Constants of the header *)

Definition kFirstYear : Z := 2013.
Definition kLastYear : Z := 2023.
Definition kMonthPerYear : Z := 12.
Definition kCounterCount : nat := Z.to_nat ((kLastYear - kFirstYear + 1) * kMonthPerYear).

Definition UINT8_MAX : Z := 255.
Definition UINT16_MAX : Z := 65535.
Definition UINT64_MOD : Z := 2 ^ 64.
Definition UINT64_MAX : Z := UINT64_MOD - 1.

Definition BytesToGBytes (bytes_count : Z) : Z :=
  (bytes_count * 1000 * 1000 * 1000) mod UINT64_MOD.
Definition BytesToTBytes (bytes_count : Z) : Z :=
  (BytesToGBytes bytes_count * 1000) mod UINT64_MOD.

Definition kMinCapacityBytes : Z := BytesToGBytes 40.
Definition kMaxCapacityBytes : Z := BytesToTBytes 40.

(** ** Errors thrown while reading a row *)

Inductive Error :=
| InvalidDateFormat   (* invalid_argument "Invalid date format" *)
| InvalidDate         (* invalid_argument "Invalid date y-m-d" *)
| ConversionError     (* system_error of util::ToInt, or a rapidcsv converter *)
| IoFailure.          (* ios failure while opening / reading the file *)

(** ** Dates: [std::chrono::year_month_day] *)

Record Date := mkDate { year : Z; month : Z; day : Z }.

Definition is_leap (y : Z) : bool :=
  (y mod 4 =? 0) && (negb (y mod 100 =? 0) || (y mod 400 =? 0)).

Definition last_day (y m : Z) : Z :=
  if m =? 2 then (if is_leap y then 29 else 28)
  else if (m =? 4) || (m =? 6) || (m =? 9) || (m =? 11) then 30
  else 31.

(** [year_month_day::ok()] *)
Definition date_ok (d : Date) : bool :=
  (1 <=? month d) && (month d <=? 12) &&
  (1 <=? day d) && (day d <=? last_day (year d) (month d)).

(** [operator<=>] of [year_month_day]: lexicographic on year, month, day. *)
Definition date_lt (a b : Date) : bool :=
  (year a <? year b) ||
  ((year a =? year b) && ((month a <? month b) ||
                          ((month a =? month b) && (day a <? day b)))).

(** [value > opt] for a [std::optional]: true when [opt] is empty. *)
Definition date_gt_opt (v : Date) (o : option Date) : bool :=
  match o with None => true | Some x => date_lt x v end.

Definition Z_gt_opt (v : Z) (o : option Z) : bool :=
  match o with None => true | Some x => x <? v end.

(** [opt1 > opt2] for two [std::optional]s. *)
Definition opt_gt (a b : option Z) : bool :=
  match a, b with
  | Some x, Some y => y <? x
  | Some _, None => true
  | None, _ => false
  end.

(** ** Strings *)

(** [isspace] in the C locale. *)
Definition isspace (c : ascii) : bool :=
  let n := nat_of_ascii c in (Nat.eqb n 32) || ((9 <=? n)%nat && (n <=? 13)%nat).

Fixpoint remove_if (p : ascii -> bool) (s : string) : string :=
  match s with
  | EmptyString => EmptyString
  | String c s' => if p c then remove_if p s' else String c (remove_if p s')
  end.

(** [boost::split(v, s, boost::is_any_of("-"))], tokens not compressed. *)
Fixpoint split_dash_go (s cur : string) : list string :=
  match s with
  | EmptyString => [cur]
  | String c s' =>
      if Ascii.eqb c "-"%char then cur :: split_dash_go s' EmptyString
      else split_dash_go s' (cur +:+ String c EmptyString)
  end.
Definition split_dash (s : string) : list string := split_dash_go s EmptyString.

Definition digit_value (c : ascii) : option Z :=
  let n := nat_of_ascii c in
  if ((48 <=? n)%nat && (n <=? 57)%nat) then Some (Z.of_nat n - 48) else None.

(** The longest prefix of decimal digits, as [std::from_chars] reads it. *)
Fixpoint digits_go (s : string) (acc : option Z) : option Z :=
  match s with
  | EmptyString => acc
  | String c s' =>
      match digit_value c with
      | Some v => digits_go s' (Some (10 * default 0 acc + v))
      | None => acc
      end
  end.

(** [util::ToInt<Ty>]: [from_chars] into an unsigned type whose largest
    value is [maxv]; no digit, or a value out of range, throws. *)
Definition ToInt (maxv : Z) (str : string) : Error + Z :=
  match digits_go str None with
  | None => inl ConversionError
  | Some v => if v <=? maxv then inr v else inl ConversionError
  end.

(** [fmt::format("{}", n)] of a non-negative integer. *)
Definition ToString (n : Z) : string := pretty (Z.to_N n).

Definition ToString_date (d : Date) : string :=
  ToString (year d) +:+ "-" +:+ ToString (month d) +:+ "-" +:+ ToString (day d).

Definition ToString_opt (o : option Z) : string :=
  match o with Some v => ToString v | None => EmptyString end.

Definition ToString_opt_date (o : option Date) : string :=
  match o with Some v => ToString_date v | None => EmptyString end.

(** ** Data model of the header *)

Record DriveStats := mkDriveStats {
  drive_day : list Z;
  initial_power_on_hour : option Z;
  failure_date : option Date
}.

(** [DriveStats(std::optional<uint64_t> power_on_hour)]. *)
Definition new_DriveStats (power_on_hour : option Z) : DriveStats :=
  mkDriveStats (replicate kCounterCount 0) power_on_hour None.

Record ModelStats := mkModelStats {
  drives : gmap string DriveStats;
  capacity_bytes : option Z
}.

Definition empty_ModelStats : ModelStats := mkModelStats ∅ None.

Abbreviation ModelMap := (gmap string ModelStats).

Definition set_drives (d : gmap string DriveStats) (ms : ModelStats) : ModelStats :=
  mkModelStats d (capacity_bytes ms).
Definition set_capacity (c : option Z) (ms : ModelStats) : ModelStats :=
  mkModelStats (drives ms) c.
Definition set_drive_day (dd : list Z) (ds : DriveStats) : DriveStats :=
  mkDriveStats dd (initial_power_on_hour ds) (failure_date ds).
Definition set_failure_date (f : option Date) (ds : DriveStats) : DriveStats :=
  mkDriveStats (drive_day ds) (initial_power_on_hour ds) f.

(** ** Exceptions over a mutated map *)

Definition M (A : Type) : Type := ModelMap -> ModelMap * (Error + A).

#[global] Instance M_ret : MRet M := fun A x map => (map, inr x).
#[global] Instance M_bind : MBind M := fun A B f m map =>
  match m map with
  | (map', inl e) => (map', inl e)
  | (map', inr x) => f x map'
  end.

Definition throw {A} (e : Error) : M A := fun map => (map, inl e).
Definition modify (f : ModelMap -> ModelMap) : M unit := fun map => (f map, inr tt).
Definition liftE {A} (x : Error + A) : M A := fun map => (map, x).
Definition cell (c : option Z) : M Z :=
  match c with Some v => mret v | None => throw ConversionError end.

(** ** One input row, as rapidcsv returns its cells *)

Record Row := mkRow {
  r_model : string;             (* GetCell<string>("model") *)
  r_serial_number : string;     (* GetCell<string>("serial_number") *)
  r_date : string;              (* GetCell<string>("date") *)
  r_capacity_bytes : option Z;  (* GetCell<int64_t>("capacity_bytes") *)
  r_smart_9_raw : string;       (* GetCell<string>("smart_9_raw") *)
  r_failure : option Z          (* GetCell<int>("failure") *)
}.

(** ** The row readers of [backblaze.cpp] *)

Definition ReadDate (date_cell : string) : Error + Date :=
  match split_dash date_cell with
  | [yy; mm; dd] =>
      match ToInt UINT16_MAX yy with
      | inl e => inl e
      | inr y =>
          if (y <? kFirstYear) || (kLastYear <? y) then inl InvalidDate
          else match ToInt UINT8_MAX mm with
               | inl e => inl e
               | inr m =>
                   match ToInt UINT8_MAX dd with
                   | inl e => inl e
                   | inr d =>
                       let date := mkDate y m d in
                       if date_ok date then inr date else inl InvalidDate
                   end
               end
      end
  | _ => inl InvalidDateFormat
  end.

Definition ReadId (id : string) : string := remove_if isspace id.

Definition ReadCapacity (raw_capacity : Z) : option Z :=
  if raw_capacity <? 0 then None
  else if (raw_capacity <? kMinCapacityBytes) || (kMaxCapacityBytes <? raw_capacity)
       then None
       else Some raw_capacity.

Definition UpdateCapacity (new_capacity : Z) (model_stats : ModelStats) : ModelStats :=
  if Z_gt_opt new_capacity (capacity_bytes model_stats)
  then set_capacity (Some new_capacity) model_stats
  else model_stats.

Definition UpdateFailureDate (new_date : Date) (drive_stats : DriveStats) : DriveStats :=
  if date_gt_opt new_date (failure_date drive_stats)
  then set_failure_date (Some new_date) drive_stats
  else drive_stats.

(** The lazily evaluated initial power-on-hour of [ReadRawStats]. *)
Definition read_power_on_hour (power_on_hour : string) : Error + option Z :=
  if String.eqb power_on_hour EmptyString then inr None
  else match ToInt UINT64_MAX power_on_hour with
       | inl e => inl e
       | inr v => inr (Some v)
       end.

(** [map[model_name]]. *)
Definition find_or_create_model (model_name : string) : M unit :=
  modify (fun map =>
    match map !! model_name with
    | Some _ => map
    | None => <[model_name := empty_ModelStats]> map
    end).

(** [model_stats.drives.try_emplace(serial_number, Lazy{...})]: the lazy
    value is only evaluated when the serial is new; if it throws, nothing
    is inserted. *)
Definition try_emplace_drive (model_name serial_number : string)
    (power_on_hour : Error + option Z) : M unit := fun map =>
  match map !! model_name with
  | None => (map, inr tt)
  | Some ms =>
      match drives ms !! serial_number with
      | Some _ => (map, inr tt)
      | None =>
          match power_on_hour with
          | inl e => (map, inl e)
          | inr p =>
              (<[model_name := set_drives (<[serial_number := new_DriveStats p]> (drives ms)) ms]> map,
               inr tt)
          end
      end
  end.

Definition update_drive (model_name serial_number : string)
    (f : DriveStats -> DriveStats) (map : ModelMap) : ModelMap :=
  alter (fun ms => set_drives (alter f serial_number (drives ms)) ms) model_name map.

Definition month_index (date : Date) : nat :=
  Z.to_nat ((year date - kFirstYear) * kMonthPerYear + (month date - 1)).

(** [++drive_stats.drive_day[idx]] on a [uint64_t]. *)
Definition increment_day (idx : nat) (ds : DriveStats) : DriveStats :=
  set_drive_day (alter (fun n => (n + 1) mod UINT64_MOD) idx (drive_day ds)) ds.

(** The body of the row loop of [ReadRawStats]. *)
Definition ReadRawStatsRow (r : Row) : M unit :=
  let model_name := ReadId (r_model r) in
  find_or_create_model model_name ;;
  raw_capacity ← cell (r_capacity_bytes r) ;
  (match ReadCapacity raw_capacity with
   | Some capacity_bytes => modify (alter (UpdateCapacity capacity_bytes) model_name)
   | None => mret tt
   end) ;;
  let serial_number := ReadId (r_serial_number r) in
  try_emplace_drive model_name serial_number (read_power_on_hour (r_smart_9_raw r)) ;;
  date ← liftE (ReadDate (r_date r)) ;
  modify (update_drive model_name serial_number (increment_day (month_index date))) ;;
  failure ← cell (r_failure r) ;
  if Z.eqb failure 0 then mret tt
  else modify (update_drive model_name serial_number (UpdateFailureDate date)).

Fixpoint ReadRows (rows : list Row) : M unit :=
  match rows with
  | [] => mret tt
  | r :: rs => ReadRawStatsRow r ;; ReadRows rs
  end.

(** [ReadRawStats(map, file_path)]: a file is the document rapidcsv parses,
    or [None] when opening or reading it fails. *)
Definition ReadRawStats (file : option (list Row)) : M unit :=
  match file with
  | None => throw IoFailure
  | Some rows => ReadRows rows
  end.

(** ** [MergeParsedStats] *)

(** [ranges::transform(drive_day, other.drive_day, begin(drive_day), plus<uint64_t>{})] *)
Definition add_counters (a b : list Z) : list Z :=
  zip_with (fun x y => (x + y) mod UINT64_MOD) a b.

(** The body of the loop over the drives of one model of [other]. *)
Definition merge_drive (other_drive_stats : DriveStats)
    (existing : option DriveStats) : DriveStats :=
  let drive_stats := match existing with
                     | Some ds => ds
                     | None => new_DriveStats (initial_power_on_hour other_drive_stats)
                     end in
  let drive_stats := set_drive_day (add_counters (drive_day drive_stats)
                                                 (drive_day other_drive_stats)) drive_stats in
  match failure_date other_drive_stats with
  | Some other_failure_date => UpdateFailureDate other_failure_date drive_stats
  | None => drive_stats
  end.

Definition merge_drives (acc other : gmap string DriveStats) : gmap string DriveStats :=
  map_fold (fun serial_number other_drive_stats acc' =>
              <[serial_number := merge_drive other_drive_stats (acc' !! serial_number)]> acc')
           acc other.

(** The body of the loop over the models of [other]. *)
Definition merge_model (other_model_stats : ModelStats)
    (existing : option ModelStats) : ModelStats :=
  let model_stats := default empty_ModelStats existing in
  let model_stats :=
    if opt_gt (capacity_bytes other_model_stats) (capacity_bytes model_stats)
    then set_capacity (capacity_bytes other_model_stats) model_stats
    else model_stats in
  set_drives (merge_drives (drives model_stats) (drives other_model_stats)) model_stats.

Definition MergeParsedStats (map other : ModelMap) : ModelMap :=
  map_fold (fun model_name other_model_stats acc =>
              <[model_name := merge_model other_model_stats (acc !! model_name)]> acc)
           map other.

(** The sequential reduction at the end of [ParseRawStats]. *)
Definition reduce (stores : list ModelMap) : ModelMap :=
  foldl MergeParsedStats ∅ stores.

(** ** Lookups used to state properties *)

Definition lookup_drive (map : ModelMap) (model_name serial_number : string) : option DriveStats :=
  map !! model_name ≫= fun ms => drives ms !! serial_number.

Definition capacity_of (map : ModelMap) (model_name : string) : option Z :=
  map !! model_name ≫= capacity_bytes.

(** ** Output rows: [MakeParsedStatsRow] *)

Definition counter_cell (number : Z) : string :=
  if Z.eqb number 0 then EmptyString else ToString number.

Definition MakeParsedStatsRow (model_name : string) (model_stats : ModelStats)
    (serial_number : string) (drive_stats : DriveStats) : list string :=
  [model_name; serial_number;
   ToString_opt (capacity_bytes model_stats);
   ToString_opt (initial_power_on_hour drive_stats);
   ToString_opt_date (failure_date drive_stats)]
  ++ map counter_cell (drive_day drive_stats).

(** [kOutputPrefix] *)
Definition kOutputPrefix : list string :=
  ["model"; "serial_number"; "capacity_bytes"; "initial_power_on_hour"].

(** ** Output document: [MakeParsedStatsHeader] and [WriteParsedStats] *)

(** The prefix columns, then ["date_<year>-<month>"] for each month of
    [kFirstYear] .. [kLastYear]. *)
Definition MakeParsedStatsHeader : list string :=
  kOutputPrefix ++
  List.flat_map (fun year =>
                   List.map (fun month => "date_" +:+ ToString year +:+ "-" +:+ ToString month)
                            (seqZ 1 kMonthPerYear))
                (seqZ kFirstYear (kLastYear - kFirstYear + 1)).

(** The document [WriteParsedStats] hands to rapidcsv: the header row, then
    one row per drive of each model, in the iteration order of both maps
    ([map_to_list]). *)
Definition WriteParsedStats (map : ModelMap) : list (list string) :=
  MakeParsedStatsHeader ::
  List.flat_map (fun '(model_name, model_stats) =>
                   List.map (fun '(serial_number, drive_stats) =>
                               MakeParsedStatsRow model_name model_stats serial_number drive_stats)
                            (map_to_list (drives model_stats)))
                (map_to_list map).

(** ** Work queue: [get_next_file_path] *)

Fixpoint last_slash_suffix (s acc : string) : string :=
  match s with
  | EmptyString => acc
  | String c s' =>
      if Ascii.eqb c "/"%char then last_slash_suffix s' EmptyString
      else last_slash_suffix s' (acc +:+ String c EmptyString)
  end.

(** [path::filename()] of a POSIX path. *)
Definition filename (p : string) : string := last_slash_suffix p EmptyString.

(** The suffix starting at the last dot, if any. *)
Fixpoint last_dot_suffix (s : string) : option string :=
  match s with
  | EmptyString => None
  | String c s' =>
      match last_dot_suffix s' with
      | Some x => Some x
      | None => if Ascii.eqb c "."%char then Some s else None
      end
  end.

(** [path::extension()]: empty for ["."], [".."] and a filename whose only
    dot is its first character. *)
Definition extension (p : string) : string :=
  let fn := filename p in
  if String.eqb fn "." || String.eqb fn ".." then EmptyString
  else match last_dot_suffix fn with
       | Some ext => if String.eqb ext fn then EmptyString else ext
       | None => EmptyString
       end.

(** The directory iterator is the list of entries it has not yet passed;
    an empty [filesystem::path] is [None]. *)
Fixpoint get_next_file_path (it : list string) : option string * list string :=
  match it with
  | [] => (None, [])
  | file_path :: it' =>
      if String.eqb (extension file_path) ".csv" then (Some file_path, it')
      else get_next_file_path it'
  end.

(** [n] consecutive calls, serialised by [it_mutex]. *)
Fixpoint dispense (n : nat) (it : list string) : list (option string) :=
  match n with
  | O => []
  | S n' => let '(p, it') := get_next_file_path it in p :: dispense n' it'
  end.

(** ** Workers of [ParseRawStats] *)

(** A worker reads its files one after the other; an exception is caught
    and printed, and the worker goes on with its next file, keeping what
    the failed file already folded into its map. *)
Fixpoint worker (files : list (option (list Row))) (map : ModelMap) : ModelMap :=
  match files with
  | [] => map
  | f :: fs => worker fs (ReadRawStats f map).1
  end.

(** [main] on a single input file: the exception of [ReadRawStats] reaches
    [main]'s handler and the process exits with [EXIT_FAILURE]. *)
Definition main_single_file (file : option (list Row)) : Z :=
  match (ReadRawStats file ∅).2 with
  | inl _ => 1
  | inr _ => 0
  end.

(** [ParseRawStats]: [assignment] holds, for each of the [thread_count]
    workers, the paths it obtained from [get_next_file_path], in order, and
    [read] gives the document of a path ([None] when opening it fails).
    Every worker folds its files into its own map, which starts out empty;
    the maps are then merged into an empty result in worker order. *)
Definition ParseRawStats (read : string -> option (list Row)) (assignment : list (list string)) : ModelMap :=
  reduce (List.map (fun paths => worker (List.map read paths) ∅) assignment).

(** ** Derived notions used to state properties *)

(** What [UpdateFailureDate] computes from an optional current date and an
    optional new date: the later of both, absent below any date. *)
Definition date_max_opt (cur new : option Date) : option Date :=
  match new with
  | None => cur
  | Some d => if date_gt_opt d cur then Some d else cur
  end.

(** Maximum of two optional capacities, absent below any value. *)
Definition opt_max (a b : option Z) : option Z :=
  match a, b with
  | Some x, Some y => Some (Z.max x y)
  | Some x, None => Some x
  | None, y => y
  end.

Definition model_capacity (map : ModelMap) (model_name : string) : option (option Z) :=
  capacity_bytes <$> map !! model_name.
Definition counters_of (map : ModelMap) (model_name serial_number : string) : option (list Z) :=
  drive_day <$> lookup_drive map model_name serial_number.
Definition failure_of (map : ModelMap) (model_name serial_number : string) : option (option Date) :=
  failure_date <$> lookup_drive map model_name serial_number.
Definition power_on_hour_of (map : ModelMap) (model_name serial_number : string) : option (option Z) :=
  initial_power_on_hour <$> lookup_drive map model_name serial_number.

(** Every drive has [kCounterCount] counters, each a [uint64_t]: what the
    [DriveStats] constructor establishes and nothing resizes. *)
Definition wf_store (map : ModelMap) : Prop :=
  forall model_name serial_number ds,
    lookup_drive map model_name serial_number = Some ds ->
    length (drive_day ds) = kCounterCount /\
    Forall (fun n => 0 <= n < UINT64_MOD) (drive_day ds).

(** The paths with the recognized extension, in discovery order. *)
Definition csv_paths (it : list string) : list string :=
  List.filter (fun p => String.eqb (extension p) ".csv") it.

(** The failure-date sequence of a drive as the spec describes it (the
    code stores at most one date). *)
Definition failure_seq (ds : DriveStats) : list Date :=
  match failure_date ds with Some d => [d] | None => [] end.

(** The spec's [max_failure_width]: the longest failure-date sequence over
    all drives of the store. *)
Definition spec_max_failure_width (map : ModelMap) : nat :=
  map_fold (fun _ ms acc =>
              map_fold (fun _ ds acc' => Nat.max (length (failure_seq ds)) acc') acc (drives ms))
           O map.

(** Trimming as the spec describes it: leading and trailing whitespace
    removed, interior characters kept. *)
Fixpoint spec_trim_left (s : string) : string :=
  match s with
  | String c s' => if isspace c then spec_trim_left s' else s
  | EmptyString => EmptyString
  end.
Fixpoint spec_trim_right (s : string) : string :=
  match s with
  | String c s' =>
      let t := spec_trim_right s' in
      if isspace c && String.eqb t EmptyString then EmptyString else String c t
  | EmptyString => EmptyString
  end.
Definition spec_trim (s : string) : string := spec_trim_right (spec_trim_left s).

(** Characters in a string. *)
Fixpoint has_dash (s : string) : bool :=
  match s with
  | EmptyString => false
  | String c s' => Ascii.eqb c "-"%char || has_dash s'
  end.

Fixpoint has_char (c : ascii) (s : string) : bool :=
  match s with
  | EmptyString => false
  | String c' s' => Ascii.eqb c' c || has_char c s'
  end.

(** A string that ends the leading digits: empty or not starting with a digit. *)
Definition digits_end (s : string) : Prop :=
  match s with EmptyString => True | String c _ => digit_value c = None end.

(** A row whose every cell that [ReadRawStatsRow] reads converts: a
    capacity, a power-on-hour that parses (or is empty), a valid date and a
    failure flag. *)
Definition row_clean (r : Row) : bool :=
  match r_capacity_bytes r, read_power_on_hour (r_smart_9_raw r), ReadDate (r_date r), r_failure r with
  | Some _, inr _, inr _, Some _ => true
  | _, _, _, _ => false
  end.

Definition row_month (r : Row) : option nat :=
  match ReadDate (r_date r) with inr d => Some (month_index d) | inl _ => None end.

(** Counting rows: the rows of one drive, and for each month index the
    number of them dated in that month, modulo 2^64. *)
Definition drive_rows (rows : list Row) (m sn : string) : list Row :=
  filter (fun r => ReadId (r_model r) = m /\ ReadId (r_serial_number r) = sn) rows.

Definition count_vector (rows : list Row) (m sn : string) : list Z :=
  List.map (fun i => Z.of_nat (length (filter (fun r => row_month r = Some i) (drive_rows rows m sn))) mod UINT64_MOD)
           (seq 0 kCounterCount).

(** The counters a drive should have after all [rows]: absent when no row
    names it. *)
Definition expected_counters (rows : list Row) (m sn : string) : option (list Z) :=
  match drive_rows rows m sn with
  | [] => None
  | _ => Some (count_vector rows m sn)
  end.

(** All rows of the files at [paths], in order. *)
Definition file_rows (read : string -> option (list Row)) (paths : list string) : list Row :=
  List.flat_map (fun p => default [] (read p)) paths.

(** * Properties *)

(** ** Map folds of [MergeParsedStats] *)

Lemma map_fold_update_lookup {A B} (g : A -> option B -> B)
    (acc : gmap string B) (other : gmap string A) (k : string) :
  map_fold (fun i x r => <[i := g x (r !! i)]> r) acc other !! k =
  match other !! k with
  | Some x => Some (g x (acc !! k))
  | None => acc !! k
  end.
Proof.
  revert k.
  apply (map_fold_weak_ind
           (fun r m => forall k, r !! k = match m !! k with
                                          | Some x => Some (g x (acc !! k))
                                          | None => acc !! k end)).
  - intros k. by rewrite lookup_empty.
  - intros i x m r Hi IH k. rewrite !lookup_insert.
    destruct (decide (i = k)) as [<-|Hne].
    + rewrite IH, Hi. reflexivity.
    + apply IH.
Qed.

Lemma MergeParsedStats_lookup (map other : ModelMap) (k : string) :
  MergeParsedStats map other !! k =
  match other !! k with
  | Some oms => Some (merge_model oms (map !! k))
  | None => map !! k
  end.
Proof. apply (map_fold_update_lookup merge_model). Qed.

Lemma merge_drives_lookup (acc other : gmap string DriveStats) (k : string) :
  merge_drives acc other !! k =
  match other !! k with
  | Some ods => Some (merge_drive ods (acc !! k))
  | None => acc !! k
  end.
Proof. apply (map_fold_update_lookup merge_drive). Qed.

Lemma merge_model_capacity (oms : ModelStats) (e : option ModelStats) :
  capacity_bytes (merge_model oms e) =
  opt_max (e ≫= capacity_bytes) (capacity_bytes oms).
Proof.
  unfold merge_model, opt_gt, opt_max.
  destruct e as [[d [x|]]|]; simpl;
    destruct (capacity_bytes oms) as [y|]; simpl; try reflexivity.
  destruct (Z.ltb_spec x y); simpl; f_equal; lia.
Qed.

Lemma merge_model_drives (oms : ModelStats) (e : option ModelStats) :
  drives (merge_model oms e) =
  merge_drives (default ∅ (drives <$> e)) (drives oms).
Proof.
  destruct e as [ms|]; unfold merge_model; simpl;
    destruct (opt_gt _ _); reflexivity.
Qed.

Lemma merge_drive_day (ods : DriveStats) (e : option DriveStats) :
  drive_day (merge_drive ods e) =
  add_counters (default (replicate kCounterCount 0) (drive_day <$> e)) (drive_day ods).
Proof.
  unfold merge_drive, UpdateFailureDate.
  destruct e, (failure_date ods); simpl; try destruct (date_gt_opt _ _); reflexivity.
Qed.

Lemma merge_drive_failure (ods : DriveStats) (e : option DriveStats) :
  failure_date (merge_drive ods e) =
  date_max_opt (e ≫= failure_date) (failure_date ods).
Proof.
  unfold merge_drive, UpdateFailureDate, date_max_opt.
  destruct e, (failure_date ods); simpl; try destruct (date_gt_opt _ _); reflexivity.
Qed.

Lemma merge_drive_power_on_hour (ods : DriveStats) (e : option DriveStats) :
  initial_power_on_hour (merge_drive ods e) =
  match e with Some ds => initial_power_on_hour ds | None => initial_power_on_hour ods end.
Proof.
  unfold merge_drive, UpdateFailureDate.
  destruct e, (failure_date ods); simpl; try destruct (date_gt_opt _ _); reflexivity.
Qed.

Lemma lookup_drive_merge (acc other : ModelMap) m sn :
  lookup_drive (MergeParsedStats acc other) m sn =
  match lookup_drive other m sn with
  | Some ods => Some (merge_drive ods (lookup_drive acc m sn))
  | None => lookup_drive acc m sn
  end.
Proof.
  unfold lookup_drive. rewrite MergeParsedStats_lookup.
  destruct (other !! m) as [oms|] eqn:Ho; cbn [mbind option_bind].
  - rewrite merge_model_drives, merge_drives_lookup.
    destruct (drives oms !! sn); destruct (acc !! m); reflexivity.
  - destruct (acc !! m); reflexivity.
Qed.

(** ** The steps of [ReadRawStatsRow] *)

Lemma ReadRawStatsRow_eq (r : Row) (s : ModelMap) :
  ReadRawStatsRow r s =
  let mn := ReadId (r_model r) in
  let sn := ReadId (r_serial_number r) in
  let s1 := (find_or_create_model mn s).1 in
  match r_capacity_bytes r with
  | None => (s1, inl ConversionError)
  | Some raw =>
      let s2 := match ReadCapacity raw with
                | Some c => alter (UpdateCapacity c) mn s1
                | None => s1
                end in
      match try_emplace_drive mn sn (read_power_on_hour (r_smart_9_raw r)) s2 with
      | (s3, inl e) => (s3, inl e)
      | (s3, inr _) =>
          match ReadDate (r_date r) with
          | inl e => (s3, inl e)
          | inr d =>
              let s4 := update_drive mn sn (increment_day (month_index d)) s3 in
              match r_failure r with
              | None => (s4, inl ConversionError)
              | Some f =>
                  if Z.eqb f 0 then (s4, inr tt)
                  else (update_drive mn sn (UpdateFailureDate d) s4, inr tt)
              end
          end
      end
  end.
Proof.
  unfold ReadRawStatsRow, mbind, M_bind, find_or_create_model, modify, cell, throw,
    liftE, mret, M_ret; cbn.
  destruct (r_capacity_bytes r) as [raw|]; [|reflexivity].
  destruct (ReadCapacity raw);
    (destruct (try_emplace_drive _ _ _ _) as [s3 [e|[]]]; [reflexivity|]);
    (destruct (ReadDate (r_date r)); [reflexivity|]);
    destruct (r_failure r) as [f|]; try reflexivity;
    destruct (Z.eqb f 0); reflexivity.
Qed.

Section Steps.
Context (mn sn : string).

Lemma find_or_create_present (s : ModelMap) :
  is_Some ((find_or_create_model mn s).1 !! mn).
Proof.
  simpl. destruct (s !! mn) eqn:E; [by rewrite E | by rewrite lookup_insert_eq].
Qed.

Lemma find_or_create_lookup_other (s : ModelMap) m :
  m <> mn -> (find_or_create_model mn s).1 !! m = s !! m.
Proof.
  intros Hne. simpl. destruct (s !! mn); [done|]. by rewrite lookup_insert_ne.
Qed.

Lemma find_or_create_lookup_drive (s : ModelMap) m sn' :
  lookup_drive (find_or_create_model mn s).1 m sn' = lookup_drive s m sn'.
Proof.
  unfold lookup_drive. simpl. destruct (s !! mn) eqn:E; [done|].
  rewrite lookup_insert. destruct (decide (mn = m)) as [<-|]; [|done].
  by rewrite E.
Qed.

Lemma find_or_create_capacity (s : ModelMap) m :
  capacity_of (find_or_create_model mn s).1 m = capacity_of s m.
Proof.
  unfold capacity_of. simpl. destruct (s !! mn) eqn:E; [done|].
  rewrite lookup_insert. destruct (decide (mn = m)) as [<-|]; [|done].
  by rewrite E.
Qed.

Lemma UpdateCapacity_capacity (c : Z) (ms : ModelStats) :
  capacity_bytes (UpdateCapacity c ms) =
  if Z_gt_opt c (capacity_bytes ms) then Some c else capacity_bytes ms.
Proof. unfold UpdateCapacity. by destruct (Z_gt_opt _ _). Qed.

Lemma UpdateCapacity_drives (c : Z) (ms : ModelStats) :
  drives (UpdateCapacity c ms) = drives ms.
Proof. unfold UpdateCapacity. by destruct (Z_gt_opt _ _). Qed.

Lemma alter_capacity_present (c : Z) (s : ModelMap) m :
  is_Some (s !! m) -> is_Some (alter (UpdateCapacity c) mn s !! m).
Proof. intros. by apply lookup_alter_is_Some. Qed.

Lemma alter_capacity_lookup_drive (c : Z) (s : ModelMap) m sn' :
  lookup_drive (alter (UpdateCapacity c) mn s) m sn' = lookup_drive s m sn'.
Proof.
  unfold lookup_drive. rewrite lookup_alter.
  destruct (decide (mn = m)) as [<-|]; [|done].
  destruct (s !! mn); simpl; [by rewrite UpdateCapacity_drives | done].
Qed.

Lemma alter_capacity_capacity (c : Z) (s : ModelMap) m :
  capacity_of (alter (UpdateCapacity c) mn s) m =
  if decide (m = mn)
  then s !! mn ≫= fun ms => capacity_bytes (UpdateCapacity c ms)
  else capacity_of s m.
Proof.
  unfold capacity_of. rewrite lookup_alter.
  destruct (decide (mn = m)) as [<-|Hne];
    destruct (decide _); try congruence.
  by destruct (s !! mn).
Qed.

Lemma try_emplace_drive_lookup p (s : ModelMap) m sn' :
  is_Some (s !! mn) ->
  lookup_drive (try_emplace_drive mn sn p s).1 m sn' =
  if decide (m = mn /\ sn' = sn)
  then match lookup_drive s mn sn, p with
       | None, inr v => Some (new_DriveStats v)
       | d, _ => d
       end
  else lookup_drive s m sn'.
Proof.
  intros [ms Hms]. unfold try_emplace_drive, lookup_drive. rewrite Hms.
  cbn [mbind option_bind].
  destruct (drives ms !! sn) as [d|] eqn:Hd; [|destruct p as [e|v]]; cbn [fst];
    case_decide as Hc; try (destruct Hc as [-> ->]; rewrite ?Hms, ?Hd; done); try done.
  - destruct Hc as [-> ->]. rewrite lookup_insert_eq. cbn. by rewrite lookup_insert_eq.
  - rewrite lookup_insert. case_decide as Hm; [subst m|done]. cbn.
    rewrite lookup_insert. case_decide as Hs; [subst sn'; tauto|].
    by rewrite Hms.
Qed.

Lemma try_emplace_drive_result p (s : ModelMap) :
  is_Some (s !! mn) ->
  (try_emplace_drive mn sn p s).2 =
  match lookup_drive s mn sn, p with
  | None, inl e => inl e
  | _, _ => inr tt
  end.
Proof.
  intros [ms Hms]. unfold try_emplace_drive, lookup_drive. rewrite Hms. simpl.
  destruct (drives ms !! sn); [done|]. by destruct p.
Qed.

Lemma try_emplace_drive_capacity p (s : ModelMap) m :
  capacity_of (try_emplace_drive mn sn p s).1 m = capacity_of s m.
Proof.
  unfold try_emplace_drive, capacity_of.
  destruct (s !! mn) as [ms|] eqn:Hms; [|done].
  destruct (drives ms !! sn); [done|]. destruct p; [done|]. simpl.
  rewrite lookup_insert. destruct (decide (mn = m)) as [<-|]; [|done].
  by rewrite Hms.
Qed.

Lemma try_emplace_drive_present p (s : ModelMap) m :
  is_Some (s !! m) -> is_Some ((try_emplace_drive mn sn p s).1 !! m).
Proof.
  unfold try_emplace_drive. intros Hm.
  destruct (s !! mn) as [ms|] eqn:Hms; [|done].
  destruct (drives ms !! sn); [done|]. destruct p; [done|]. simpl.
  by apply lookup_insert_is_Some'; right.
Qed.

Lemma update_drive_lookup f (s : ModelMap) m sn' :
  lookup_drive (update_drive mn sn f s) m sn' =
  if decide (m = mn /\ sn' = sn) then f <$> lookup_drive s m sn'
  else lookup_drive s m sn'.
Proof.
  unfold update_drive, lookup_drive. rewrite lookup_alter.
  destruct (decide (mn = m)) as [<-|Hne].
  - destruct (s !! mn) as [ms|]; simpl.
    + rewrite lookup_alter.
      destruct (decide (sn = sn')) as [<-|];
        destruct (decide _) as [[_ ?]|Hn]; try congruence; try tauto.
    + by destruct (decide _).
  - destruct (decide _) as [[? _]|]; [congruence|done].
Qed.

Lemma update_drive_capacity f (s : ModelMap) m :
  capacity_of (update_drive mn sn f s) m = capacity_of s m.
Proof.
  unfold update_drive, capacity_of. rewrite lookup_alter.
  destruct (decide (mn = m)) as [<-|]; [|done].
  by destruct (s !! mn).
Qed.

Lemma update_drive_present f (s : ModelMap) m :
  is_Some (s !! m) -> is_Some (update_drive mn sn f s !! m).
Proof. intros. unfold update_drive. by apply lookup_alter_is_Some. Qed.
End Steps.

Lemma increment_day_power_on_hour i ds :
  initial_power_on_hour (increment_day i ds) = initial_power_on_hour ds.
Proof. reflexivity. Qed.
Lemma increment_day_failure i ds : failure_date (increment_day i ds) = failure_date ds.
Proof. reflexivity. Qed.
Lemma UpdateFailureDate_power_on_hour d ds :
  initial_power_on_hour (UpdateFailureDate d ds) = initial_power_on_hour ds.
Proof. unfold UpdateFailureDate. by destruct (date_gt_opt _ _). Qed.
Lemma UpdateFailureDate_failure d ds :
  failure_date (UpdateFailureDate d ds) = date_max_opt (failure_date ds) (Some d).
Proof. unfold UpdateFailureDate, date_max_opt. by destruct (date_gt_opt _ _). Qed.
Lemma UpdateFailureDate_drive_day d ds :
  drive_day (UpdateFailureDate d ds) = drive_day ds.
Proof. unfold UpdateFailureDate. by destruct (date_gt_opt _ _). Qed.

(** The map after the capacity step of a row. *)
Definition after_capacity (mn : string) (raw : Z) (s : ModelMap) : ModelMap :=
  match ReadCapacity raw with
  | Some c => alter (UpdateCapacity c) mn (find_or_create_model mn s).1
  | None => (find_or_create_model mn s).1
  end.

Lemma after_capacity_present mn raw s : is_Some (after_capacity mn raw s !! mn).
Proof.
  unfold after_capacity. destruct (ReadCapacity raw);
    [apply alter_capacity_present|]; apply find_or_create_present.
Qed.

Lemma after_capacity_lookup_drive mn raw s m sn' :
  lookup_drive (after_capacity mn raw s) m sn' = lookup_drive s m sn'.
Proof.
  unfold after_capacity. destruct (ReadCapacity raw);
    rewrite ?alter_capacity_lookup_drive; apply find_or_create_lookup_drive.
Qed.

Lemma after_capacity_capacity mn raw s m :
  capacity_of (after_capacity mn raw s) m =
  match ReadCapacity raw with
  | Some c => if bool_decide (m = mn) && Z_gt_opt c (capacity_of s mn) then Some c
              else capacity_of s m
  | None => capacity_of s m
  end.
Proof.
  unfold after_capacity. destruct (ReadCapacity raw) as [c|];
    [|apply find_or_create_capacity].
  rewrite alter_capacity_capacity.
  destruct (decide (m = mn)) as [->|Hne].
  - rewrite bool_decide_true by done. cbn [andb].
    destruct (find_or_create_present mn s) as [ms Hms]. rewrite Hms. cbn [mbind option_bind].
    assert (Hc : capacity_of s mn = capacity_bytes ms).
    { rewrite <- (find_or_create_capacity mn s mn). unfold capacity_of. by rewrite Hms. }
    rewrite Hc.
    rewrite UpdateCapacity_capacity. by destruct (Z_gt_opt _ _).
  - rewrite bool_decide_false by done. cbn [andb]. apply find_or_create_capacity.
Qed.

Lemma ReadRawStatsRow_eq' (r : Row) (s : ModelMap) :
  ReadRawStatsRow r s =
  let mn := ReadId (r_model r) in
  let sn := ReadId (r_serial_number r) in
  match r_capacity_bytes r with
  | None => ((find_or_create_model mn s).1, inl ConversionError)
  | Some raw =>
      match try_emplace_drive mn sn (read_power_on_hour (r_smart_9_raw r))
              (after_capacity mn raw s) with
      | (s3, inl e) => (s3, inl e)
      | (s3, inr _) =>
          match ReadDate (r_date r) with
          | inl e => (s3, inl e)
          | inr d =>
              let s4 := update_drive mn sn (increment_day (month_index d)) s3 in
              match r_failure r with
              | None => (s4, inl ConversionError)
              | Some f =>
                  if Z.eqb f 0 then (s4, inr tt)
                  else (update_drive mn sn (UpdateFailureDate d) s4, inr tt)
              end
          end
      end
  end.
Proof. rewrite ReadRawStatsRow_eq. reflexivity. Qed.

(** The drive a row creates, or finds, before its date is read. *)
Definition emplaced_drive (s : ModelMap) (r : Row) : option DriveStats :=
  match lookup_drive s (ReadId (r_model r)) (ReadId (r_serial_number r)),
        read_power_on_hour (r_smart_9_raw r) with
  | None, inr v => Some (new_DriveStats v)
  | d, _ => d
  end.

(** The effect of one row on its own drive. *)
Lemma ReadRawStatsRow_lookup_self (r : Row) (s : ModelMap) :
  lookup_drive (ReadRawStatsRow r s).1 (ReadId (r_model r)) (ReadId (r_serial_number r)) =
  match r_capacity_bytes r with
  | None => lookup_drive s (ReadId (r_model r)) (ReadId (r_serial_number r))
  | Some _ =>
      emplaced_drive s r ≫= fun ds =>
      Some match ReadDate (r_date r) with
           | inl _ => ds
           | inr d =>
               let ds1 := increment_day (month_index d) ds in
               match r_failure r with
               | Some f => if Z.eqb f 0 then ds1 else UpdateFailureDate d ds1
               | None => ds1
               end
           end
  end.
Proof.
  rewrite ReadRawStatsRow_eq'. cbv zeta.
  set (mn := ReadId (r_model r)). set (sn := ReadId (r_serial_number r)).
  destruct (r_capacity_bytes r) as [raw|]; [|apply find_or_create_lookup_drive].
  pose proof (after_capacity_present mn raw s) as P2.
  pose proof (try_emplace_drive_lookup mn sn (read_power_on_hour (r_smart_9_raw r)) _ mn sn P2) as L3.
  pose proof (try_emplace_drive_result mn sn (read_power_on_hour (r_smart_9_raw r)) _ P2) as R3.
  rewrite !after_capacity_lookup_drive in L3, R3.
  unfold emplaced_drive. fold mn sn.
  destruct (try_emplace_drive _ _ _ _) as [s3 res]. simpl in L3, R3.
  rewrite decide_True in L3 by tauto.
  destruct res as [e|[]].
  - simpl. rewrite L3. destruct (lookup_drive s mn sn), (read_power_on_hour (r_smart_9_raw r)); try done. 
  - destruct (ReadDate (r_date r)) as [e|d]; cbn [fst].
    + rewrite L3.
      destruct (lookup_drive s mn sn), (read_power_on_hour (r_smart_9_raw r)); done.
    + destruct (r_failure r) as [f|]; [destruct (Z.eqb f 0)|]; cbn [fst];
        rewrite ?update_drive_lookup, ?decide_True by tauto;
        rewrite ?update_drive_lookup, ?decide_True by tauto; rewrite L3;
        destruct (lookup_drive s mn sn), (read_power_on_hour (r_smart_9_raw r)); try done.
Qed.

(** Splits a row into its cases, up to the drive's emplacement. *)
Ltac split_row r s :=
  rewrite ReadRawStatsRow_eq'; cbv zeta;
  destruct (r_capacity_bytes r) as [raw|] eqn:Hraw;
  [ pose proof (after_capacity_present (ReadId (r_model r)) raw s) as P2;
    pose proof (try_emplace_drive_result (ReadId (r_model r)) (ReadId (r_serial_number r))
                  (read_power_on_hour (r_smart_9_raw r)) _ P2) as R3;
    pose proof (fun m sn' => try_emplace_drive_lookup (ReadId (r_model r)) (ReadId (r_serial_number r))
                  (read_power_on_hour (r_smart_9_raw r)) _ m sn' P2) as L3;
    pose proof (fun m => try_emplace_drive_capacity (ReadId (r_model r)) (ReadId (r_serial_number r))
                  (read_power_on_hour (r_smart_9_raw r)) (after_capacity (ReadId (r_model r)) raw s) m) as C3;
    pose proof (fun m => try_emplace_drive_present (ReadId (r_model r)) (ReadId (r_serial_number r))
                  (read_power_on_hour (r_smart_9_raw r)) (after_capacity (ReadId (r_model r)) raw s) m) as Q3;
    rewrite ?after_capacity_lookup_drive in R3, L3;
    destruct (try_emplace_drive _ _ _ _) as [s3 res]; cbn [fst snd] in R3, L3, C3, Q3;
    destruct res as [e|[]]
  | ].

Lemma ReadRawStatsRow_lookup_other (r : Row) (s : ModelMap) m sn' :
  ~ (m = ReadId (r_model r) /\ sn' = ReadId (r_serial_number r)) ->
  lookup_drive (ReadRawStatsRow r s).1 m sn' = lookup_drive s m sn'.
Proof.
  intros Hne. split_row r s.
  - cbn [fst]. rewrite L3, decide_False by done. apply after_capacity_lookup_drive.
  - destruct (ReadDate (r_date r)) as [e|d]; cbn [fst].
    + rewrite L3, decide_False by done. apply after_capacity_lookup_drive.
    + destruct (r_failure r) as [f|]; [destruct (Z.eqb f 0)|]; cbn [fst];
        rewrite ?update_drive_lookup, ?decide_False by done;
        rewrite ?update_drive_lookup, ?decide_False by done;
        rewrite L3, decide_False by done; apply after_capacity_lookup_drive.
  - apply find_or_create_lookup_drive.
Qed.

Lemma ReadRawStatsRow_capacity (r : Row) (s : ModelMap) m :
  capacity_of (ReadRawStatsRow r s).1 m =
  match r_capacity_bytes r ≫= ReadCapacity with
  | Some c => if bool_decide (m = ReadId (r_model r)) && Z_gt_opt c (capacity_of s (ReadId (r_model r)))
              then Some c else capacity_of s m
  | None => capacity_of s m
  end.
Proof.
  split_row r s.
  - cbn [fst]. rewrite C3. apply after_capacity_capacity.
  - destruct (ReadDate (r_date r)) as [e|d]; cbn [fst];
      [|destruct (r_failure r) as [f|]; [destruct (Z.eqb f 0)|]; cbn [fst]];
      rewrite ?update_drive_capacity, C3; apply after_capacity_capacity.
  - cbn [fst]. apply find_or_create_capacity.
Qed.

Lemma ReadRawStatsRow_result (r : Row) (s : ModelMap) :
  (ReadRawStatsRow r s).2 =
  match r_capacity_bytes r with
  | None => inl ConversionError
  | Some _ =>
      match lookup_drive s (ReadId (r_model r)) (ReadId (r_serial_number r)),
            read_power_on_hour (r_smart_9_raw r) with
      | None, inl e => inl e
      | _, _ =>
          match ReadDate (r_date r) with
          | inl e => inl e
          | inr _ => match r_failure r with
                     | None => inl ConversionError
                     | Some f => inr tt
                     end
          end
      end
  end.
Proof.
  split_row r s.
  - cbn [snd]. destruct (lookup_drive s (ReadId (r_model r)) (ReadId (r_serial_number r))), (read_power_on_hour (r_smart_9_raw r)); congruence.
  - destruct (lookup_drive s (ReadId (r_model r)) (ReadId (r_serial_number r))), (read_power_on_hour (r_smart_9_raw r)); try discriminate;
      (destruct (ReadDate (r_date r)); [reflexivity|]);
      (destruct (r_failure r) as [f|]; [destruct (Z.eqb f 0)|]; reflexivity).
  - reflexivity.
Qed.

Lemma ReadRawStatsRow_present (r : Row) (s : ModelMap) m :
  m = ReadId (r_model r) \/ is_Some (s !! m) ->
  is_Some ((ReadRawStatsRow r s).1 !! m).
Proof.
  intros Hm.
  assert (H1 : is_Some ((find_or_create_model (ReadId (r_model r)) s).1 !! m)).
  { destruct Hm as [->|Hs]; [apply find_or_create_present|].
    destruct (decide (m = ReadId (r_model r))) as [->|Hne]; [apply find_or_create_present|].
    by rewrite find_or_create_lookup_other. }
  assert (H2 : forall raw, is_Some (after_capacity (ReadId (r_model r)) raw s !! m)).
  { intros raw. unfold after_capacity.
    destruct (ReadCapacity raw); [by apply alter_capacity_present|done]. }
  split_row r s.
  - cbn [fst]. apply Q3, H2.
  - destruct (ReadDate (r_date r)) as [e|d]; cbn [fst]; [apply Q3, H2|].
    destruct (r_failure r) as [f|]; [destruct (Z.eqb f 0)|]; cbn [fst];
      repeat apply update_drive_present; apply Q3, H2.
  - exact H1.
Qed.

Lemma ReadRows_app (rs1 rs2 : list Row) (s : ModelMap) :
  ReadRows (rs1 ++ rs2) s =
  match ReadRows rs1 s with
  | (s', inl e) => (s', inl e)
  | (s', inr _) => ReadRows rs2 s'
  end.
Proof.
  revert s. induction rs1 as [|r rs1 IH]; intros s; [reflexivity|].
  cbn [app ReadRows]. unfold mbind, M_bind.
  destruct (ReadRawStatsRow r s) as [s1 [e|[]]]; [done|].
  apply IH.
Qed.

Lemma ReadRows_cons (r : Row) (rs : list Row) (s : ModelMap) :
  ReadRows (r :: rs) s =
  match ReadRawStatsRow r s with
  | (s', inl e) => (s', inl e)
  | (s', inr _) => ReadRows rs s'
  end.
Proof. reflexivity. Qed.

(** A drive, once present, stays present and keeps its initial power-on-hour
    through one row. *)
Lemma ReadRawStatsRow_keeps_power_on_hour (r : Row) (s : ModelMap) m sn ds :
  lookup_drive s m sn = Some ds ->
  exists ds', lookup_drive (ReadRawStatsRow r s).1 m sn = Some ds' /\
              initial_power_on_hour ds' = initial_power_on_hour ds.
Proof.
  intros Hds.
  destruct (decide (m = ReadId (r_model r) /\ sn = ReadId (r_serial_number r)))
    as [[-> ->]|Hne].
  - rewrite ReadRawStatsRow_lookup_self.
    destruct (r_capacity_bytes r); [|by eexists].
    unfold emplaced_drive. rewrite Hds.
    destruct (read_power_on_hour (r_smart_9_raw r)); cbn [mbind option_bind];
      eexists; split; try reflexivity;
      (destruct (ReadDate (r_date r)); [reflexivity|]);
      (destruct (r_failure r) as [f|]; [destruct (Z.eqb f 0)|]; cbn;
       rewrite ?UpdateFailureDate_power_on_hour; reflexivity).
  - rewrite ReadRawStatsRow_lookup_other by done. by eexists.
Qed.

Lemma ReadRows_keeps_power_on_hour (rows : list Row) (s : ModelMap) m sn ds :
  lookup_drive s m sn = Some ds ->
  exists ds', lookup_drive (ReadRows rows s).1 m sn = Some ds' /\
              initial_power_on_hour ds' = initial_power_on_hour ds.
Proof.
  revert s ds. induction rows as [|r rows IH]; intros s ds Hds.
  - by eexists.
  - rewrite ReadRows_cons.
    destruct (ReadRawStatsRow_keeps_power_on_hour r s m sn ds Hds) as (ds1 & H1 & P1).
    destruct (ReadRawStatsRow r s) as [s1 [e|[]]] eqn:E; cbn [fst] in H1.
    + by exists ds1.
    + destruct (IH s1 ds1 H1) as (ds2 & H2 & P2). exists ds2. by rewrite P2.
Qed.

(** ** Claims about folding a row *)

(** C5: a capacity reading that is negative, below 40 GB or above 40 TB
    leaves [ModelStats.capacity_bytes] unchanged; a change only happens for
    a plausible reading strictly above the stored value, which it becomes.
    This holds whatever the rest of the row does (also when it throws). *)
Theorem C5_capacity_only_plausible_increase (r : Row) (s : ModelMap) (raw : Z) (m : string) :
  r_capacity_bytes r = Some raw ->
  ((raw < 0 \/ raw < kMinCapacityBytes \/ kMaxCapacityBytes < raw) ->
     capacity_of (ReadRawStatsRow r s).1 m = capacity_of s m) /\
  (capacity_of (ReadRawStatsRow r s).1 m <> capacity_of s m ->
     m = ReadId (r_model r) /\ 0 <= raw /\ kMinCapacityBytes <= raw <= kMaxCapacityBytes /\
     Z_gt_opt raw (capacity_of s m) = true /\
     capacity_of (ReadRawStatsRow r s).1 m = Some raw).
Proof.
  intros Hraw. rewrite ReadRawStatsRow_capacity, Hraw. cbn [mbind option_bind].
  unfold ReadCapacity.
  destruct (Z.ltb_spec raw 0) as [Hneg|Hpos].
  { split; [done|]. intros []; reflexivity. }
  destruct (Z.ltb_spec raw kMinCapacityBytes) as [Hlo|Hlo];
    destruct (Z.ltb_spec kMaxCapacityBytes raw) as [Hhi|Hhi]; cbn [orb].
  1-3: split; [done|]; intros []; reflexivity.
  split; [intros; lia|].
  case_bool_decide as Hm; cbn [andb].
  - subst m. destruct (Z_gt_opt raw _) eqn:Hgt; [|intros []; reflexivity].
    intros _. repeat split; auto; lia.
  - intros []; reflexivity.
Qed.

Lemma C5_capacity_only_plausible_increase_witness :
  r_capacity_bytes (mkRow "M" "S" "2020-01-02" (Some 5) "" (Some 0)) = Some 5 /\
  capacity_of (ReadRawStatsRow (mkRow "M" "S" "2020-01-02" (Some 5) "" (Some 0)) ∅).1 "M" =
  capacity_of ∅ "M".
Proof.
  split; [reflexivity|].
  apply (proj1 (C5_capacity_only_plausible_increase
                  (mkRow "M" "S" "2020-01-02" (Some 5) "" (Some 0)) ∅ 5 "M" eq_refl)).
  right; left. vm_compute. reflexivity.
Defined.

(** C6: after [MergeParsedStats(acc, other)] every model of [other] has in
    [acc] the maximum of both capacities, an absent capacity being below
    every present one. *)
Theorem C6_merge_capacity_max (acc other : ModelMap) (m : string) :
  is_Some (other !! m) ->
  capacity_of (MergeParsedStats acc other) m =
  opt_max (capacity_of acc m) (capacity_of other m).
Proof.
  intros [oms Ho]. unfold capacity_of.
  rewrite MergeParsedStats_lookup, Ho. cbn [mbind option_bind].
  apply merge_model_capacity.
Qed.

Lemma C6_merge_capacity_max_witness :
  let acc := <["M" := mkModelStats ∅ (Some 40000000000)]> (∅ : ModelMap) in
  let other := <["M" := mkModelStats ∅ (Some 80000000000)]> (∅ : ModelMap) in
  is_Some (other !! "M") /\
  capacity_of (MergeParsedStats acc other) "M" = opt_max (capacity_of acc "M") (capacity_of other "M").
Proof.
  cbv zeta. split; [by eexists|].
  apply C6_merge_capacity_max. by eexists.
Defined.

(** C7: the initial power-on-hour of a drive is set when its [DriveStats] is
    created, from the row that first sights the serial under its model
    (fold) or from [other] (merge), and no later fold or merge changes it. *)
Theorem C7_power_on_hour_set_once :
  (forall (rows : list Row) (s : ModelMap) m sn ds,
     lookup_drive s m sn = Some ds ->
     power_on_hour_of (ReadRows rows s).1 m sn = Some (initial_power_on_hour ds)) /\
  (forall (acc other : ModelMap) m sn ds,
     lookup_drive acc m sn = Some ds ->
     power_on_hour_of (MergeParsedStats acc other) m sn = Some (initial_power_on_hour ds)) /\
  (forall (r : Row) (s : ModelMap) m sn ds',
     lookup_drive s m sn = None ->
     lookup_drive (ReadRawStatsRow r s).1 m sn = Some ds' ->
     m = ReadId (r_model r) /\ sn = ReadId (r_serial_number r) /\
     read_power_on_hour (r_smart_9_raw r) = inr (initial_power_on_hour ds')) /\
  (forall (acc other : ModelMap) m sn ods,
     lookup_drive acc m sn = None ->
     lookup_drive other m sn = Some ods ->
     power_on_hour_of (MergeParsedStats acc other) m sn = Some (initial_power_on_hour ods)).
Proof.
  split; [|split; [|split]].
  - intros rows s m sn ds Hds. unfold power_on_hour_of.
    destruct (ReadRows_keeps_power_on_hour rows s m sn ds Hds) as (ds' & -> & <-).
    reflexivity.
  - intros acc other m sn ds Hds. unfold power_on_hour_of.
    rewrite lookup_drive_merge, Hds.
    destruct (lookup_drive other m sn); cbn [fmap option_fmap option_map];
      [rewrite merge_drive_power_on_hour|]; reflexivity.
  - intros r s m sn ds' Hnone Hnew.
    destruct (decide (m = ReadId (r_model r) /\ sn = ReadId (r_serial_number r)))
      as [[-> ->]|Hne].
    + do 2 (split; [reflexivity|]).
      rewrite ReadRawStatsRow_lookup_self in Hnew.
      destruct (r_capacity_bytes r); [|congruence].
      unfold emplaced_drive in Hnew. rewrite Hnone in Hnew.
      destruct (read_power_on_hour (r_smart_9_raw r)) as [e|v]; cbn in Hnew; [discriminate|].
      injection Hnew as <-.
      destruct (ReadDate (r_date r)); [reflexivity|].
      destruct (r_failure r) as [f|]; [destruct (Z.eqb f 0)|]; cbn;
        rewrite ?UpdateFailureDate_power_on_hour; reflexivity.
    + rewrite ReadRawStatsRow_lookup_other in Hnew by done. congruence.
  - intros acc other m sn ods Hnone Ho. unfold power_on_hour_of.
    rewrite lookup_drive_merge, Ho, Hnone. cbn. rewrite merge_drive_power_on_hour. reflexivity.
Qed.

Definition sample_row (model serial date : string) (capacity : Z) (poh : string) (failure : Z) : Row :=
  mkRow model serial date (Some capacity) poh (Some failure).

Lemma C7_power_on_hour_set_once_witness :
  power_on_hour_of
    (ReadRows [sample_row "M" "S" "2020-01-03" 4000787030016 "999" 0]
       (ReadRows [sample_row "M" "S" "2020-01-02" 4000787030016 "123" 0] ∅).1).1 "M" "S"
  = Some (Some 123).
Proof.
  destruct C7_power_on_hour_set_once as [Hfold _].
  apply (Hfold _ _ "M" "S" (increment_day 84 (new_DriveStats (Some 123)))).
  vm_compute. reflexivity.
Defined.

(** C10: rejecting a row whose date is invalid is not atomic: the model
    entry, a plausible capacity update and the drive's [DriveStats] (with its
    initial power-on-hour) made before [ReadDate] throws stay in the map;
    only the day counter and the failure date are left untouched. *)
Theorem C10_invalid_date_partial_effects (r : Row) (s : ModelMap) (raw : Z) (e : Error) :
  r_capacity_bytes r = Some raw ->
  ReadDate (r_date r) = inl e ->
  is_Some (emplaced_drive s r) ->
  let mn := ReadId (r_model r) in
  let sn := ReadId (r_serial_number r) in
  let s' := (ReadRawStatsRow r s).1 in
  (ReadRawStatsRow r s).2 = inl e /\
  is_Some (s' !! mn) /\
  capacity_of s' mn =
    match ReadCapacity raw with
    | Some c => if Z_gt_opt c (capacity_of s mn) then Some c else capacity_of s mn
    | None => capacity_of s mn
    end /\
  lookup_drive s' mn sn = emplaced_drive s r /\
  (forall m, m <> mn -> capacity_of s' m = capacity_of s m) /\
  (forall m sn', ~ (m = mn /\ sn' = sn) -> lookup_drive s' m sn' = lookup_drive s m sn').
Proof.
  intros Hraw Hdate [ds Hds]. cbv zeta.
  split; [|split; [|split; [|split; [|split]]]].
  - rewrite ReadRawStatsRow_result, Hraw, Hdate.
    unfold emplaced_drive in Hds.
    destruct (lookup_drive s (ReadId (r_model r)) (ReadId (r_serial_number r))), (read_power_on_hour (r_smart_9_raw r)); congruence.
  - apply ReadRawStatsRow_present. by left.
  - rewrite ReadRawStatsRow_capacity, Hraw. cbn [mbind option_bind].
    rewrite bool_decide_true by done. by destruct (ReadCapacity raw).
  - rewrite ReadRawStatsRow_lookup_self, Hraw, Hds, Hdate. reflexivity.
  - intros m Hm. rewrite ReadRawStatsRow_capacity.
    rewrite bool_decide_false by done.
    destruct (r_capacity_bytes r ≫= ReadCapacity); reflexivity.
  - intros m sn' Hne. by apply ReadRawStatsRow_lookup_other.
Qed.

Lemma C10_invalid_date_partial_effects_witness :
  let r := sample_row "M" "S" "2020-13-01" 4000787030016 "123" 0 in
  (ReadRawStatsRow r ∅).2 = inl InvalidDate /\
  lookup_drive (ReadRawStatsRow r ∅).1 (ReadId "M") (ReadId "S") = emplaced_drive ∅ r.
Proof.
  cbv zeta.
  destruct (C10_invalid_date_partial_effects
              (sample_row "M" "S" "2020-13-01" 4000787030016 "123" 0) ∅ 4000787030016 InvalidDate
              eq_refl ltac:(vm_compute; reflexivity) ltac:(vm_compute; eexists; reflexivity))
    as (H1 & _ & _ & H4 & _).
  split; [exact H1|exact H4].
Defined.

(** ** Failure dates *)

Lemma ReadRawStatsRow_success (r : Row) (s : ModelMap) :
  (ReadRawStatsRow r s).2 = inr tt ->
  (exists raw, r_capacity_bytes r = Some raw) /\
  (exists ds, emplaced_drive s r = Some ds) /\
  (exists d, ReadDate (r_date r) = inr d) /\
  (exists f, r_failure r = Some f).
Proof.
  rewrite ReadRawStatsRow_result. unfold emplaced_drive.
  destruct (r_capacity_bytes r) as [raw|]; [|discriminate].
  destruct (lookup_drive s (ReadId (r_model r)) (ReadId (r_serial_number r))) as [ds|] eqn:Hl;
    destruct (read_power_on_hour (r_smart_9_raw r)) as [e|v]; try discriminate;
    (destruct (ReadDate (r_date r)) as [|d]; [discriminate|]);
    (destruct (r_failure r) as [f|]; [|discriminate]);
    intros _; repeat split; eauto.
Qed.

Definition c1_row (date : string) : Row :=
  sample_row "ST4000DM000" "Z1F0XYZ" date 4000787030016 "" 1.

(** The per-file aggregates of two files reporting the same serial failing
    on 2020-01-10 and on 2020-01-05, merged as [ParseRawStats] does. *)
Definition c1_merged : ModelMap :=
  reduce [(ReadRawStats (Some [c1_row "2020-01-10"]) ∅).1;
          (ReadRawStats (Some [c1_row "2020-01-05"]) ∅).1].

(** C1 (counterexample): the merged drive does not hold the failure-date
    sequence [2020-01-05; 2020-01-10]. *)
Lemma C1_failure_sequence_counterexample :
  (failure_seq <$> lookup_drive c1_merged "ST4000DM000" "Z1F0XYZ")
  <> Some [mkDate 2020 1 5; mkDate 2020 1 10].
Proof. vm_compute. discriminate. Qed.

(** C1 (amended): a drive keeps a single optional failure date, the latest
    one seen: folding a failure row with date [d] replaces it by the later
    of the stored date and [d], merging replaces it by the later of both
    stores' dates (an absent date is earlier than any date); in the two-file
    example the merged drive's failure date is 2020-01-10 alone. *)
Theorem C1_latest_failure_date :
  (forall (r : Row) (s s' : ModelMap) (f : Z) (d : Date),
     ReadRawStatsRow r s = (s', inr tt) ->
     r_failure r = Some f -> f <> 0 ->
     ReadDate (r_date r) = inr d ->
     failure_of s' (ReadId (r_model r)) (ReadId (r_serial_number r)) =
     Some (date_max_opt (lookup_drive s (ReadId (r_model r)) (ReadId (r_serial_number r))
                           ≫= failure_date) (Some d))) /\
  (forall (acc other : ModelMap) m sn ods,
     lookup_drive other m sn = Some ods ->
     failure_of (MergeParsedStats acc other) m sn =
     Some (date_max_opt (lookup_drive acc m sn ≫= failure_date) (failure_date ods))) /\
  failure_of c1_merged "ST4000DM000" "Z1F0XYZ" = Some (Some (mkDate 2020 1 10)).
Proof.
  split; [|split].
  - intros r s s' f d Hrow Hf Hf0 Hd.
    pose proof (ReadRawStatsRow_success r s) as Hs. rewrite Hrow in Hs.
    destruct (Hs eq_refl) as ([raw Hraw] & [ds Hds] & _ & _).
    unfold failure_of. pose proof (ReadRawStatsRow_lookup_self r s) as Hl.
    rewrite Hrow in Hl. cbn [fst] in Hl. rewrite Hl, Hraw, Hds, Hd, Hf.
    cbn [mbind option_bind fmap option_fmap option_map].
    apply Z.eqb_neq in Hf0. rewrite Hf0.
    rewrite UpdateFailureDate_failure, increment_day_failure.
    unfold emplaced_drive in Hds.
    destruct (lookup_drive s (ReadId (r_model r)) (ReadId (r_serial_number r))) as [ds0|]; cbn [mbind option_bind].
    + destruct (read_power_on_hour (r_smart_9_raw r)); congruence.
    + destruct (read_power_on_hour (r_smart_9_raw r)); inversion Hds; reflexivity.
  - intros acc other m sn ods Ho. unfold failure_of.
    rewrite lookup_drive_merge, Ho. cbn [fmap option_fmap option_map].
    rewrite merge_drive_failure. reflexivity.
  - vm_compute. reflexivity.
Qed.

Lemma C1_latest_failure_date_witness :
  let s := (ReadRawStats (Some [c1_row "2020-01-10"]) ∅).1 in
  let r := c1_row "2020-01-05" in
  failure_of (ReadRawStatsRow r s).1 (ReadId (r_model r)) (ReadId (r_serial_number r)) =
  Some (date_max_opt (lookup_drive s (ReadId (r_model r)) (ReadId (r_serial_number r))
                        ≫= failure_date) (Some (mkDate 2020 1 5))).
Proof.
  cbv zeta.
  destruct C1_latest_failure_date as [Hfold _].
  apply (Hfold (c1_row "2020-01-05") _ _ 1 (mkDate 2020 1 5)).
  - vm_compute. reflexivity.
  - reflexivity.
  - intros H. discriminate H.
  - vm_compute. reflexivity.
Defined.

(** ** Keys *)

Lemma remove_if_app (p : ascii -> bool) (a b : string) :
  remove_if p (a +:+ b) = remove_if p a +:+ remove_if p b.
Proof.
  induction a as [|c a IH]; [reflexivity|]. simpl. destruct (p c); simpl; by rewrite IH.
Qed.

Definition c8_row : Row :=
  sample_row " WDC WD40EFRX " " WD-WCC4E1234567 " "2020-01-02" 4000787030016 "" 0.

(** C8 (counterexample): a model name with an interior space is not kept
    with its interior characters: the key is not the trimmed field. *)
Lemma C8_trim_counterexample :
  spec_trim (r_model c8_row) = "WDC WD40EFRX" /\
  ReadId (r_model c8_row) = "WDCWD40EFRX" /\
  (ReadRawStatsRow c8_row ∅).1 !! spec_trim (r_model c8_row) = None.
Proof. vm_compute. repeat split; reflexivity. Qed.

(** C8 (amended): the model and serial keys are the raw fields with every
    whitespace character removed, wherever it occurs ([ReadId] deletes each
    [isspace] character and keeps all others in order). *)
Theorem C8_keys_remove_all_whitespace :
  (forall (r : Row) (s : ModelMap),
     is_Some ((ReadRawStatsRow r s).1 !! ReadId (r_model r))) /\
  (forall (r : Row) (s : ModelMap),
     (ReadRawStatsRow r s).2 = inr tt ->
     is_Some (lookup_drive (ReadRawStatsRow r s).1 (ReadId (r_model r)) (ReadId (r_serial_number r)))) /\
  (forall a b, ReadId (a +:+ b) = ReadId a +:+ ReadId b) /\
  (forall c, ReadId (String c EmptyString) =
             if isspace c then EmptyString else String c EmptyString).
Proof.
  split; [|split; [|split]].
  - intros r s. apply ReadRawStatsRow_present. by left.
  - intros r s Hok.
    destruct (ReadRawStatsRow_success r s Hok) as ([raw Hraw] & [ds Hds] & _).
    rewrite ReadRawStatsRow_lookup_self, Hraw, Hds. cbn. by eexists.
  - intros a b. apply remove_if_app.
  - intros c. unfold ReadId. simpl. by destruct (isspace c).
Qed.

Lemma C8_keys_remove_all_whitespace_witness :
  is_Some (lookup_drive (ReadRawStatsRow c8_row ∅).1 (ReadId (r_model c8_row))
             (ReadId (r_serial_number c8_row))).
Proof.
  destruct C8_keys_remove_all_whitespace as (_ & Hdrive & _).
  apply Hdrive. vm_compute. reflexivity.
Defined.

(** ** Invalid rows and the worker loop *)

Lemma ReadRawStatsRow_invalid_date (r : Row) (s : ModelMap) e :
  ReadDate (r_date r) = inl e ->
  exists e', (ReadRawStatsRow r s).2 = inl e'.
Proof.
  intros Hd. rewrite ReadRawStatsRow_result, Hd.
  destruct (r_capacity_bytes r); [|by eexists].
  destruct (lookup_drive s _ _), (read_power_on_hour (r_smart_9_raw r)); by eexists.
Qed.

Definition c3_bad : Row := sample_row "M" "S1" "2020-13-01" 4000787030016 "" 0.
Definition c3_good : Row := sample_row "M" "S2" "2020-01-02" 4000787030016 "" 0.

(** C3 (counterexample): in a file whose first row has month 13 the second,
    valid, row is never folded (the worker moves to its next file), and read
    as a single input file the row aborts the run with exit code 1; a
    row-level rejection would have folded the second row. *)
Lemma C3_row_rejection_counterexample :
  lookup_drive (worker [Some [c3_bad; c3_good]] ∅) "M" "S2" = None /\
  is_Some (lookup_drive (ReadRawStatsRow c3_good (ReadRawStatsRow c3_bad ∅).1).1 "M" "S2") /\
  main_single_file (Some [c3_bad; c3_good]) = 1.
Proof. vm_compute. split; [reflexivity|split; [eexists; reflexivity|reflexivity]]. Qed.

(** C3 (amended): a row whose date is out of bounds makes [ReadRawStats]
    throw: the rows after it in the same file are not read, the rows before
    it (and the row's own partial effects) stay folded; a worker catches the
    exception and goes on with its next file, while a single input file given
    to [main] ends the run with exit code 1. *)
Theorem C3_invalid_date_aborts_file (pre post : list Row) (bad : Row)
    (s s1 : ModelMap) (fs : list (option (list Row))) (e : Error) :
  ReadRows pre s = (s1, inr tt) ->
  ReadDate (r_date bad) = inl e ->
  exists e',
    ReadRows (pre ++ bad :: post) s = ((ReadRawStatsRow bad s1).1, inl e') /\
    worker (Some (pre ++ bad :: post) :: fs) s = worker fs (ReadRawStatsRow bad s1).1 /\
    main_single_file (Some (pre ++ bad :: post)) = 1.
Proof.
  intros Hpre Hd.
  destruct (ReadRawStatsRow_invalid_date bad s1 e Hd) as [e' He'].
  assert (Hrows : ReadRows (pre ++ bad :: post) s = ((ReadRawStatsRow bad s1).1, inl e')).
  { rewrite ReadRows_app, Hpre, ReadRows_cons.
    destruct (ReadRawStatsRow bad s1) as [s2 res]. cbn in He'. by subst res. }
  exists e'. split; [exact Hrows|split].
  - cbn [worker ReadRawStats]. by rewrite Hrows.
  - unfold main_single_file. cbn [ReadRawStats].
    rewrite ReadRows_app.
    destruct (ReadRows pre ∅) as [s0 [e0|[]]]; [reflexivity|].
    rewrite ReadRows_cons.
    destruct (ReadRawStatsRow_invalid_date bad s0 e Hd) as [e2 He2].
    destruct (ReadRawStatsRow bad s0) as [s2 res]. cbn in He2. by subst res.
Qed.

Lemma C3_invalid_date_aborts_file_witness :
  exists e',
    ReadRows ([] ++ c3_bad :: [c3_good]) ∅ = ((ReadRawStatsRow c3_bad ∅).1, inl e') /\
    worker (Some ([] ++ c3_bad :: [c3_good]) :: []) ∅ = worker [] (ReadRawStatsRow c3_bad ∅).1 /\
    main_single_file (Some ([] ++ c3_bad :: [c3_good])) = 1.
Proof.
  apply (C3_invalid_date_aborts_file [] [c3_good] c3_bad ∅ ∅ [] InvalidDate).
  - reflexivity.
  - vm_compute. reflexivity.
Defined.

(** ** Output rows *)

Definition c4_store : ModelMap :=
  (ReadRawStats (Some [sample_row "M" "S" "2020-01-02" 4000787030016 "" 0]) ∅).1.

(** C4 (counterexample): in a store without any failure, [max_failure_width]
    is 0, yet each row still has one failure-date cell between the four
    leading cells and the 132 counters. *)
Lemma C4_failure_width_counterexample :
  match c4_store !! "M" with
  | Some ms =>
      match drives ms !! "S" with
      | Some ds =>
          spec_max_failure_width c4_store = 0%nat /\
          length (MakeParsedStatsRow "M" ms "S" ds) <>
          (4 + spec_max_failure_width c4_store + kCounterCount)%nat
      | None => False
      end
  | None => False
  end.
Proof. vm_compute. split; [reflexivity|]. intros H. discriminate H. Qed.

(** C4 (amended): every row has the model, the serial, the capacity (empty
    when absent), the initial power-on-hour (empty when absent), then exactly
    one failure-date cell (empty when the drive never failed, otherwise its
    latest failure date as y-m-d), then one cell per supported (year, month),
    empty for a zero counter. *)
Theorem C4_row_layout (model_name serial_number : string) (ms : ModelStats) (ds : DriveStats) :
  length (drive_day ds) = kCounterCount ->
  let row := MakeParsedStatsRow model_name ms serial_number ds in
  length row = (5 + kCounterCount)%nat /\
  take 4 row = [model_name; serial_number; ToString_opt (capacity_bytes ms);
                ToString_opt (initial_power_on_hour ds)] /\
  row !! 4%nat = Some (ToString_opt_date (failure_date ds)) /\
  drop 5 row = map counter_cell (drive_day ds).
Proof.
  intros Hlen. cbv zeta. unfold MakeParsedStatsRow.
  split; [|split; [|split]]; try reflexivity.
  rewrite length_app, length_map, Hlen. reflexivity.
Qed.

Lemma C4_row_layout_witness :
  let ds := new_DriveStats None in
  length (MakeParsedStatsRow "M" empty_ModelStats "S" ds) = (5 + kCounterCount)%nat.
Proof.
  cbv zeta. apply (C4_row_layout "M" "S" empty_ModelStats (new_DriveStats None)).
  vm_compute. reflexivity.
Defined.

(** ** Work queue *)

Lemma get_next_file_path_csv (it : list string) :
  match csv_paths it with
  | [] => get_next_file_path it = (None, []) 
  | p :: ps => (get_next_file_path it).1 = Some p /\ csv_paths (get_next_file_path it).2 = ps
  end.
Proof.
  induction it as [|q it IH]; [reflexivity|].
  unfold csv_paths in *. cbn [List.filter get_next_file_path].
  destruct (String.eqb (extension q) ".csv"); [done|exact IH].
Qed.

Lemma dispense_eq (n : nat) (it : list string) :
  dispense n it =
  map Some (take n (csv_paths it)) ++ replicate (n - length (csv_paths it)) None.
Proof.
  revert it. induction n as [|n IH]; intros it; [reflexivity|].
  cbn [dispense]. pose proof (get_next_file_path_csv it) as G.
  destruct (csv_paths it) as [|p ps] eqn:Hc.
  - rewrite G, IH. simpl. rewrite take_nil, Nat.sub_0_r. reflexivity.
  - destruct (get_next_file_path it) as [o it'] eqn:E. destruct G as [G1 G2].
    cbn [fst snd] in G1, G2. subst o. rewrite IH, G2. reflexivity.
Qed.

Lemma omap_dispense (xs : list string) (k : nat) :
  omap (fun x => x) (map Some xs ++ replicate k None) = xs.
Proof.
  induction xs as [|x xs IH].
  - induction k as [|k IHk]; [reflexivity|exact IHk].
  - simpl. f_equal. exact IH.
Qed.

(** C9: over any number of calls, the work-queue dispenser returns the
    paths with the [.csv] extension one by one in discovery order, then
    only empty paths; when the directory walk yields each entry once, no
    path is returned twice. *)
Theorem C9_dispense_each_path_once (it : list string) (n : nat) :
  dispense n it =
    map Some (take n (csv_paths it)) ++ replicate (n - length (csv_paths it)) None /\
  (NoDup it -> NoDup (omap (fun x => x) (dispense n it))).
Proof.
  split; [apply dispense_eq|].
  intros Hnd. rewrite dispense_eq, omap_dispense.
  assert (Hf : NoDup (csv_paths it)).
  { apply NoDup_ListNoDup. apply List.NoDup_filter. by apply NoDup_ListNoDup. }
  rewrite <- (take_drop n (csv_paths it)) in Hf. apply NoDup_app in Hf. tauto.
Qed.

Lemma C9_dispense_each_path_once_witness :
  NoDup ["d/a.csv"; "d/b.txt"; "d/c.csv"] /\
  NoDup (omap (fun x => x) (dispense 4 ["d/a.csv"; "d/b.txt"; "d/c.csv"])).
Proof.
  assert (H : NoDup ["d/a.csv"; "d/b.txt"; "d/c.csv"]).
  { apply NoDup_ListNoDup. vm_compute. repeat constructor; simpl; intuition discriminate. }
  split; [exact H|].
  exact (proj2 (C9_dispense_each_path_once ["d/a.csv"; "d/b.txt"; "d/c.csv"] 4) H).
Defined.

(** ** Commutativity of [MergeParsedStats] *)

Lemma opt_max_comm (a b : option Z) : opt_max a b = opt_max b a.
Proof. destruct a, b; simpl; try reflexivity. f_equal. lia. Qed.

Lemma opt_max_None_l (a : option Z) : opt_max None a = a.
Proof. reflexivity. Qed.

Lemma date_lt_asym (x y : Date) : date_lt x y = true -> date_lt y x = false.
Proof.
  destruct x as [xy xm xd], y as [yy ym yd]. unfold date_lt. simpl.
  destruct (Z.ltb_spec xy yy), (Z.ltb_spec yy xy), (Z.eqb_spec xy yy), (Z.eqb_spec yy xy),
    (Z.ltb_spec xm ym), (Z.ltb_spec ym xm), (Z.eqb_spec xm ym), (Z.eqb_spec ym xm),
    (Z.ltb_spec xd yd), (Z.ltb_spec yd xd); simpl; try lia; reflexivity.
Qed.

Lemma date_lt_total (x y : Date) : date_lt x y = false -> date_lt y x = false -> x = y.
Proof.
  destruct x as [xy xm xd], y as [yy ym yd]. unfold date_lt. simpl.
  destruct (Z.ltb_spec xy yy), (Z.ltb_spec yy xy), (Z.eqb_spec xy yy), (Z.eqb_spec yy xy),
    (Z.ltb_spec xm ym), (Z.ltb_spec ym xm), (Z.eqb_spec xm ym), (Z.eqb_spec ym xm),
    (Z.ltb_spec xd yd), (Z.ltb_spec yd xd); simpl; try discriminate; intros _ _;
    f_equal; lia.
Qed.

Lemma date_max_opt_comm (a b : option Date) : date_max_opt a b = date_max_opt b a.
Proof.
  destruct a as [x|], b as [y|]; unfold date_max_opt, date_gt_opt; try reflexivity.
  destruct (date_lt x y) eqn:Hxy.
  - by rewrite (date_lt_asym x y Hxy).
  - destruct (date_lt y x) eqn:Hyx; [reflexivity|].
    by rewrite (date_lt_total x y Hxy Hyx).
Qed.

Lemma date_max_opt_None_l (a : option Date) : date_max_opt None a = a.
Proof. by destruct a. Qed.

Lemma add_counters_comm (a b : list Z) : add_counters a b = add_counters b a.
Proof.
  revert b. induction a as [|x a IH]; intros [|y b]; simpl; try reflexivity.
  f_equal; [f_equal; lia|apply IH].
Qed.

Lemma add_counters_zeros (xs : list Z) :
  Forall (fun n => 0 <= n < UINT64_MOD) xs ->
  add_counters (replicate (length xs) 0) xs = xs.
Proof.
  induction 1 as [|x xs Hx _ IH]; [reflexivity|].
  simpl. rewrite IH. f_equal. rewrite Z.add_0_l. apply Z.mod_small. lia.
Qed.

Lemma merge_drive_new_counters (ds : DriveStats) :
  length (drive_day ds) = kCounterCount ->
  Forall (fun n => 0 <= n < UINT64_MOD) (drive_day ds) ->
  drive_day (merge_drive ds None) = drive_day ds.
Proof.
  intros Hlen Hr. rewrite merge_drive_day. cbn [fmap option_fmap option_map default].
  rewrite <- Hlen. by apply add_counters_zeros.
Qed.

Definition c2_store (poh : string) : ModelMap :=
  (ReadRawStats (Some [sample_row "M" "S" "2020-01-02" 4000787030016 poh 0]) ∅).1.

(** C2 (counterexample): merging is not commutative on all aggregate state:
    a drive present in both stores keeps the accumulator's initial
    power-on-hour. *)
Lemma C2_power_on_hour_counterexample :
  power_on_hour_of (MergeParsedStats (c2_store "100") (c2_store "200")) "M" "S" <>
  power_on_hour_of (MergeParsedStats (c2_store "200") (c2_store "100")) "M" "S".
Proof. vm_compute. intros H. discriminate H. Qed.

(** C2 (amended): for stores whose drives have [kCounterCount] [uint64_t]
    counters, merging A into B and B into A give the same models and
    drives, the same model capacities, the same counters and the same
    failure dates; only the initial power-on-hour of a drive present in both
    differs (the accumulator's value wins). *)
Theorem C2_merge_commutative_on_counters_capacity_failure (A B : ModelMap) :
  wf_store A -> wf_store B ->
  forall m sn,
    model_capacity (MergeParsedStats A B) m = model_capacity (MergeParsedStats B A) m /\
    counters_of (MergeParsedStats A B) m sn = counters_of (MergeParsedStats B A) m sn /\
    failure_of (MergeParsedStats A B) m sn = failure_of (MergeParsedStats B A) m sn.
Proof.
  intros HA HB m sn. split; [|split].
  - unfold model_capacity. rewrite !MergeParsedStats_lookup.
    destruct (A !! m) as [a|], (B !! m) as [b|]; cbn [fmap option_fmap option_map];
      rewrite ?merge_model_capacity; cbn [mbind option_bind]; try reflexivity.
    f_equal. apply opt_max_comm.
  - unfold counters_of. rewrite !lookup_drive_merge.
    destruct (lookup_drive A m sn) as [a|] eqn:Ha, (lookup_drive B m sn) as [b|] eqn:Hb;
      cbn [fmap option_fmap option_map]; try reflexivity.
    + rewrite !merge_drive_day. cbn [fmap option_fmap option_map default].
      f_equal. apply add_counters_comm.
    + destruct (HA _ _ _ Ha). f_equal. symmetry. by apply merge_drive_new_counters.
    + destruct (HB _ _ _ Hb). f_equal. by apply merge_drive_new_counters.
  - unfold failure_of. rewrite !lookup_drive_merge.
    destruct (lookup_drive A m sn) as [a|], (lookup_drive B m sn) as [b|];
      cbn [fmap option_fmap option_map]; try reflexivity;
      rewrite ?merge_drive_failure; cbn [mbind option_bind]; f_equal;
      rewrite ?date_max_opt_None_l; try reflexivity.
    apply date_max_opt_comm.
Qed.

Lemma wf_store_empty : wf_store ∅.
Proof. intros m sn ds H. discriminate H. Qed.

(** ** The counter invariant is kept by folding and merging *)

Definition wf_drive (ds : DriveStats) : Prop :=
  length (drive_day ds) = kCounterCount /\
  Forall (fun n => 0 <= n < UINT64_MOD) (drive_day ds).

Lemma wf_new_DriveStats p : wf_drive (new_DriveStats p).
Proof.
  split; [apply length_replicate|]. apply Forall_replicate. cbv. split; congruence.
Qed.

Lemma wf_increment_day i ds : wf_drive ds -> wf_drive (increment_day i ds).
Proof.
  intros [Hl Hr]. unfold wf_drive, increment_day, set_drive_day. cbn [drive_day].
  split; [by rewrite length_alter|].
  apply Forall_alter; [exact Hr|]. intros x _ _. apply Z.mod_pos_bound. reflexivity.
Qed.

Lemma wf_UpdateFailureDate d ds : wf_drive ds -> wf_drive (UpdateFailureDate d ds).
Proof. unfold wf_drive. by rewrite UpdateFailureDate_drive_day. Qed.

Lemma add_counters_range (a b : list Z) :
  Forall (fun n => 0 <= n < UINT64_MOD) (add_counters a b).
Proof.
  revert b. induction a as [|x a IH]; intros [|y b]; simpl; constructor; auto.
  apply Z.mod_pos_bound. reflexivity.
Qed.

Lemma wf_merge_drive ods e :
  wf_drive ods -> (forall ds, e = Some ds -> wf_drive ds) -> wf_drive (merge_drive ods e).
Proof.
  intros [Hl _] He. split; [|rewrite merge_drive_day; apply add_counters_range].
  rewrite merge_drive_day. unfold add_counters. rewrite length_zip_with, Hl.
  destruct e as [ds|]; simpl.
  - destruct (He ds eq_refl) as [Hl' _]. rewrite Hl'. lia.
  - rewrite ?length_replicate. reflexivity.
Qed.

Lemma wf_ReadRawStatsRow (r : Row) (s : ModelMap) :
  wf_store s -> wf_store (ReadRawStatsRow r s).1.
Proof.
  intros Hs m sn ds Hds.
  destruct (decide (m = ReadId (r_model r) /\ sn = ReadId (r_serial_number r)))
    as [[-> ->]|Hne]; [|rewrite ReadRawStatsRow_lookup_other in Hds by done; by eapply Hs].
  rewrite ReadRawStatsRow_lookup_self in Hds.
  destruct (r_capacity_bytes r); [|by eapply Hs].
  assert (He : forall ds0, emplaced_drive s r = Some ds0 -> wf_drive ds0).
  { unfold emplaced_drive. intros ds0.
    destruct (lookup_drive s _ _) as [d0|] eqn:Hl.
    - destruct (read_power_on_hour (r_smart_9_raw r)); intros [= <-]; by eapply Hs.
    - destruct (read_power_on_hour (r_smart_9_raw r)); intros [= <-]. apply wf_new_DriveStats. }
  destruct (emplaced_drive s r) as [ds0|]; cbn [mbind option_bind] in Hds; [|discriminate].
  injection Hds as <-. specialize (He ds0 eq_refl).
  destruct (ReadDate (r_date r)); [exact He|].
  destruct (r_failure r) as [f|]; [destruct (Z.eqb f 0)|];
    apply (wf_UpdateFailureDate d) || idtac; by apply wf_increment_day.
Qed.

Lemma wf_ReadRows (rows : list Row) (s : ModelMap) :
  wf_store s -> wf_store (ReadRows rows s).1.
Proof.
  revert s. induction rows as [|r rows IH]; intros s Hs; [exact Hs|].
  rewrite ReadRows_cons. pose proof (wf_ReadRawStatsRow r s Hs) as H1.
  destruct (ReadRawStatsRow r s) as [s1 [e|[]]]; [exact H1|]. by apply IH.
Qed.

Lemma wf_ReadRawStats (file : option (list Row)) (s : ModelMap) :
  wf_store s -> wf_store (ReadRawStats file s).1.
Proof. destruct file; [apply wf_ReadRows|done]. Qed.

Lemma wf_worker (files : list (option (list Row))) (s : ModelMap) :
  wf_store s -> wf_store (worker files s).
Proof.
  revert s. induction files as [|f fs IH]; intros s Hs; [exact Hs|].
  apply IH. by apply wf_ReadRawStats.
Qed.

Lemma wf_MergeParsedStats (acc other : ModelMap) :
  wf_store acc -> wf_store other -> wf_store (MergeParsedStats acc other).
Proof.
  intros Ha Ho m sn ds. rewrite lookup_drive_merge.
  destruct (lookup_drive other m sn) as [ods|] eqn:Hods; [|by apply Ha].
  intros [= <-]. apply wf_merge_drive; [by eapply Ho|].
  intros ds0 He. by eapply Ha.
Qed.

Lemma wf_reduce (stores : list ModelMap) :
  Forall wf_store stores -> wf_store (reduce stores).
Proof.
  unfold reduce. generalize wf_store_empty. generalize (∅ : ModelMap).
  intros acc Hacc Hall. revert acc Hacc.
  induction Hall as [|x xs Hx _ IH]; intros acc Hacc; [exact Hacc|].
  simpl. apply IH. by apply wf_MergeParsedStats.
Qed.

Lemma C2_merge_commutative_on_counters_capacity_failure_witness :
  model_capacity (MergeParsedStats (c2_store "100") (c2_store "200")) "M" =
  model_capacity (MergeParsedStats (c2_store "200") (c2_store "100")) "M" /\
  counters_of (MergeParsedStats (c2_store "100") (c2_store "200")) "M" "S" =
  counters_of (MergeParsedStats (c2_store "200") (c2_store "100")) "M" "S" /\
  failure_of (MergeParsedStats (c2_store "100") (c2_store "200")) "M" "S" =
  failure_of (MergeParsedStats (c2_store "200") (c2_store "100")) "M" "S".
Proof.
  apply C2_merge_commutative_on_counters_capacity_failure;
    apply wf_ReadRawStats, wf_store_empty.
Defined.

(** ** Algebra of [MergeParsedStats] *)

Definition wf_model (ms : ModelStats) : Prop :=
  map_Forall (fun _ ds => wf_drive ds) (drives ms).

Lemma map_fold_update_assoc {A} (g : A -> option A -> A) (P : A -> Prop)
    (a b c : gmap string A) :
  (forall x, P x -> g x None = x) ->
  (forall x y z, P x -> P y -> g x (Some (g y z)) = g (g x (Some y)) z) ->
  map_Forall (fun _ => P) b -> map_Forall (fun _ => P) c ->
  let F := fun acc other => map_fold (fun i x r => <[i := g x (r !! i)]> r) acc other in
  F (F a b) c = F a (F b c).
Proof.
  intros Hid Hassoc Hb Hc F. apply map_eq. intros k. unfold F.
  rewrite !map_fold_update_lookup.
  destruct (c !! k) as [z|] eqn:Ec, (b !! k) as [y|] eqn:Eb; try reflexivity.
  - f_equal. apply Hassoc; [by eapply Hc|by eapply Hb].
  - rewrite (Hid z) by (by eapply Hc). reflexivity.
Qed.

Lemma DriveStats_ext (d1 d2 : DriveStats) :
  drive_day d1 = drive_day d2 -> initial_power_on_hour d1 = initial_power_on_hour d2 ->
  failure_date d1 = failure_date d2 -> d1 = d2.
Proof. destruct d1, d2; simpl; intros; subst; reflexivity. Qed.

Lemma ModelStats_ext (m1 m2 : ModelStats) :
  drives m1 = drives m2 -> capacity_bytes m1 = capacity_bytes m2 -> m1 = m2.
Proof. destruct m1, m2; simpl; intros; subst; reflexivity. Qed.

Lemma date_lt_trans (x y z : Date) :
  date_lt x y = true -> date_lt y z = true -> date_lt x z = true.
Proof.
  destruct x as [xy xm xd], y as [yy ym yd], z as [zy zm zd]. unfold date_lt. simpl.
  rewrite !orb_true_iff, !andb_true_iff, !orb_true_iff, !andb_true_iff,
    !Z.ltb_lt, !Z.eqb_eq, ?Z.ltb_lt. lia.
Qed.

Lemma date_max_opt_assoc (a b c : option Date) :
  date_max_opt (date_max_opt a b) c = date_max_opt a (date_max_opt b c).
Proof.
  destruct a as [x|], b as [y|], c as [z|]; unfold date_max_opt, date_gt_opt; try reflexivity;
    repeat (case_match; simplify_eq/=); try congruence;
    try match goal with
    | H1 : date_lt ?a ?b = true, H2 : date_lt ?b ?c = true, H : date_lt ?a ?c = false |- _ =>
        rewrite (date_lt_trans _ _ _ H1 H2) in H; discriminate
    end;
    try match goal with
    | H1 : date_lt ?a ?b = false, H2 : date_lt ?b ?a = false |- _ =>
        rewrite (date_lt_total _ _ H1 H2) in *; congruence
    end;
    repeat match goal with d : Date |- _ => destruct d end;
    unfold date_lt in *; simpl in *;
    rewrite ?orb_true_iff, ?orb_false_iff, ?andb_true_iff, ?andb_false_iff,
      ?Z.ltb_lt, ?Z.ltb_ge, ?Z.eqb_eq, ?Z.eqb_neq in *;
    first [exfalso; lia | do 2 f_equal; lia].
Qed.

Lemma opt_max_assoc (a b c : option Z) : opt_max (opt_max a b) c = opt_max a (opt_max b c).
Proof. destruct a, b, c; simpl; try reflexivity; f_equal; lia. Qed.

Lemma add_counters_assoc (a b c : list Z) :
  add_counters (add_counters a b) c = add_counters a (add_counters b c).
Proof.
  revert b c. induction a as [|x a IH]; intros [|y b] [|z c]; simpl; try reflexivity.
  f_equal; [|apply IH].
  rewrite Zplus_mod_idemp_l, Zplus_mod_idemp_r. f_equal. lia.
Qed.

Lemma merge_drive_None (x : DriveStats) : wf_drive x -> merge_drive x None = x.
Proof.
  intros [Hl Hr]. apply DriveStats_ext.
  - by apply merge_drive_new_counters.
  - by rewrite merge_drive_power_on_hour.
  - rewrite merge_drive_failure. apply date_max_opt_None_l.
Qed.

Lemma merge_drive_assoc (x y : DriveStats) (z : option DriveStats) :
  merge_drive x (Some (merge_drive y z)) = merge_drive (merge_drive x (Some y)) z.
Proof.
  apply DriveStats_ext.
  - rewrite !merge_drive_day. cbn [fmap option_fmap option_map default].
    unfold id. rewrite merge_drive_day. apply add_counters_assoc.
  - rewrite !merge_drive_power_on_hour. destruct z; reflexivity.
  - rewrite (merge_drive_failure x), (merge_drive_failure (merge_drive x (Some y))).
    change (Some (merge_drive y z) ≫= failure_date) with (failure_date (merge_drive y z)).
    rewrite (merge_drive_failure y z), (merge_drive_failure x (Some y)).
    apply date_max_opt_assoc.
Qed.

Lemma merge_model_None (x : ModelStats) : wf_model x -> merge_model x None = x.
Proof.
  intros Hx. apply ModelStats_ext.
  - rewrite merge_model_drives. cbn [fmap option_fmap option_map default].
    apply map_eq. intros k. rewrite merge_drives_lookup.
    destruct (drives x !! k) as [d|] eqn:E; [|by rewrite lookup_empty].
    f_equal. apply merge_drive_None. by eapply Hx.
  - rewrite merge_model_capacity. reflexivity.
Qed.

Lemma merge_drives_assoc (a b c : gmap string DriveStats) :
  map_Forall (fun _ => wf_drive) b -> map_Forall (fun _ => wf_drive) c ->
  merge_drives (merge_drives a b) c = merge_drives a (merge_drives b c).
Proof.
  intros Hb Hc. apply (map_fold_update_assoc merge_drive wf_drive a b c); auto.
  - apply merge_drive_None.
  - intros x y z _ _. apply merge_drive_assoc.
Qed.

Lemma merge_model_assoc (x y : ModelStats) (z : option ModelStats) :
  wf_model x -> wf_model y ->
  merge_model x (Some (merge_model y z)) = merge_model (merge_model x (Some y)) z.
Proof.
  intros Hx Hy. apply ModelStats_ext.
  - rewrite !merge_model_drives. cbn [fmap option_fmap option_map default].
    rewrite !merge_model_drives. cbn [fmap option_fmap option_map default].
    unfold id. apply merge_drives_assoc; [exact Hy|exact Hx].
  - rewrite !merge_model_capacity. cbn [mbind option_bind].
    rewrite !merge_model_capacity. apply opt_max_assoc.
Qed.

Lemma wf_store_models (s : ModelMap) : wf_store s -> map_Forall (fun _ => wf_model) s.
Proof.
  intros Hs m ms Hm sn ds Hds. apply (Hs m sn). unfold lookup_drive. by rewrite Hm.
Qed.

Theorem MergeParsedStats_assoc (A B C : ModelMap) :
  wf_store B -> wf_store C ->
  MergeParsedStats (MergeParsedStats A B) C = MergeParsedStats A (MergeParsedStats B C).
Proof.
  intros HB HC.
  apply (map_fold_update_assoc merge_model wf_model A B C);
    auto using merge_model_None, merge_model_assoc, wf_store_models.
Qed.

Lemma MergeParsedStats_empty_r (A : ModelMap) : MergeParsedStats A ∅ = A.
Proof. unfold MergeParsedStats. by rewrite map_fold_empty. Qed.

Lemma MergeParsedStats_empty_l (B : ModelMap) : wf_store B -> MergeParsedStats ∅ B = B.
Proof.
  intros HB. apply map_eq. intros k. rewrite MergeParsedStats_lookup, lookup_empty.
  destruct (B !! k) as [ms|] eqn:E; [|reflexivity].
  f_equal. apply merge_model_None. by eapply wf_store_models.
Qed.

Lemma foldl_MergeParsedStats (acc : ModelMap) (ys : list ModelMap) :
  Forall wf_store ys -> foldl MergeParsedStats acc ys = MergeParsedStats acc (reduce ys).
Proof.
  intros Hys. revert acc. induction Hys as [|y ys Hy Hys IH]; intros acc.
  - simpl. symmetry. apply MergeParsedStats_empty_r.
  - unfold reduce. simpl. rewrite (MergeParsedStats_empty_l y Hy).
    rewrite IH, IH. apply MergeParsedStats_assoc; [exact Hy|].
    apply wf_reduce. exact Hys.
Qed.

(** The reduction of [ParseRawStats] splits over a concatenation of the
    per-worker maps: reducing [xs ++ ys] is merging the reduction of [ys]
    into that of [xs], when the maps of [ys] are well formed. *)
Theorem reduce_app (xs ys : list ModelMap) :
  Forall wf_store ys -> reduce (xs ++ ys) = MergeParsedStats (reduce xs) (reduce ys).
Proof. intros Hys. unfold reduce at 1. rewrite foldl_app. by apply foldl_MergeParsedStats. Qed.

(** ** Strings: [ToString], [ToInt] and [ReadDate] *)

Lemma sapp_nil_l (s : string) : "" +:+ s = s.
Proof. reflexivity. Qed.
Lemma sapp_cons (c : ascii) (a b : string) : String c a +:+ b = String c (a +:+ b).
Proof. reflexivity. Qed.
Lemma sapp_nil_r (s : string) : s +:+ "" = s.
Proof. induction s as [|c s IH]; [reflexivity|]. rewrite sapp_cons, IH. reflexivity. Qed.
Lemma sapp_assoc (a b c : string) : (a +:+ b) +:+ c = a +:+ (b +:+ c).
Proof. induction a as [|x a IH]; [reflexivity|]. rewrite !sapp_cons, IH. reflexivity. Qed.
Lemma slength_app (a b : string) : String.length (a +:+ b) = (String.length a + String.length b)%nat.
Proof. induction a as [|x a IH]; [reflexivity|]. rewrite sapp_cons. simpl. by rewrite IH. Qed.

Lemma pretty_N_go_app (x : N) (s : string) : pretty_N_go x s = pretty_N_go x "" +:+ s.
Proof.
  revert s. induction (N.lt_wf_0 x) as [x _ IH]; intros s.
  destruct (decide (x = 0%N)) as [->|Hx]; [reflexivity|].
  rewrite !(pretty_N_go_step x) by lia.
  assert (Hlt : (x `div` 10 < x)%N) by (apply N.div_lt; lia).
  rewrite (IH _ Hlt (String _ s)), (IH _ Hlt (String _ "")).
  rewrite sapp_assoc. reflexivity.
Qed.

Lemma digit_value_pretty_N_char (k : N) :
  (k < 10)%N -> digit_value (pretty_N_char k) = Some (Z.of_N k).
Proof.
  intros Hk.
  assert (k = 0 \/ k = 1 \/ k = 2 \/ k = 3 \/ k = 4 \/ k = 5 \/ k = 6 \/ k = 7 \/ k = 8 \/ k = 9)%N
    as Hc by lia.
  repeat destruct Hc as [->|Hc]; try reflexivity. subst. reflexivity.
Qed.

Lemma digits_go_pretty (x : N) (s : string) (acc : option Z) :
  (0 < x)%N ->
  digits_go (pretty_N_go x "" +:+ s) acc =
  digits_go s (Some (default 0 acc * 10 ^ Z.of_nat (String.length (pretty_N_go x "")) + Z.of_N x)).
Proof.
  revert s acc. induction (N.lt_wf_0 x) as [x _ IH]; intros s acc Hx.
  rewrite (pretty_N_go_step x) by lia. rewrite pretty_N_go_app.
  assert (Hdm : Z.of_N x = 10 * Z.of_N (x `div` 10) + Z.of_N (x `mod` 10)).
  { rewrite (N.div_mod x 10) at 1 by lia. lia. }
  assert (Hm : (x `mod` 10 < 10)%N) by (apply N.mod_lt; lia).
  destruct (decide (x `div` 10 = 0)%N) as [Hq|Hq].
  - rewrite Hq. cbn [pretty_N_go_help pretty_N_go]. rewrite pretty_N_go_0, sapp_nil_l.
    rewrite sapp_cons, sapp_nil_l. cbn [digits_go]. rewrite digit_value_pretty_N_char by exact Hm.
    f_equal. f_equal. rewrite Hdm, Hq. simpl. lia.
  - rewrite sapp_assoc, sapp_cons, sapp_nil_l.
    rewrite IH by (try apply N.div_lt; lia).
    cbn [digits_go]. rewrite digit_value_pretty_N_char by exact Hm.
    f_equal. f_equal. rewrite slength_app. simpl String.length.
    rewrite Nat2Z.inj_add, Z.pow_add_r by lia. rewrite Hdm. change (10 ^ Z.of_nat 1) with 10. cbn [from_option id default]. set (P := 10 ^ Z.of_nat _). set (a := default 0 acc). set (q := Z.of_N _). set (r := Z.of_N (x `mod` 10)). nia.
Qed.

Lemma digits_go_end (s : string) (v : Z) : digits_end s -> digits_go s (Some v) = Some v.
Proof. destruct s as [|c s]; [reflexivity|]. simpl. intros ->. reflexivity. Qed.

Lemma digits_go_ToString (n : Z) (s : string) :
  0 <= n -> digits_end s -> digits_go (ToString n +:+ s) None = Some n.
Proof.
  intros Hn Hs. unfold ToString, pretty, pretty_N.
  destruct (decide (Z.to_N n = 0%N)) as [H0|H0].
  - rewrite sapp_cons, sapp_nil_l. cbn [digits_go]. change (digit_value "0"%char) with (Some 0%Z). cbv iota.
    rewrite digits_go_end by exact Hs. f_equal. simpl. lia.
  - rewrite digits_go_pretty by lia. rewrite digits_go_end by exact Hs.
    f_equal. simpl default. lia.
Qed.

Lemma digit_value_range (c : ascii) (v : Z) : digit_value c = Some v -> 0 <= v <= 9.
Proof.
  unfold digit_value. destruct ((48 <=? nat_of_ascii c)%nat && (nat_of_ascii c <=? 57)%nat) eqn:E;
    [|discriminate]. apply andb_true_iff in E as [E1 E2].
  apply Nat.leb_le in E1, E2. intros [= <-]. lia.
Qed.

Lemma digits_go_nonneg (s : string) (acc : option Z) :
  0 <= default 0 acc -> forall v, digits_go s acc = Some v -> 0 <= v.
Proof.
  revert acc. induction s as [|c s IH]; intros acc Hacc v; simpl.
  - destruct acc; simpl in *; intros [= <-]; lia.
  - destruct (digit_value c) as [w|] eqn:E; [|destruct acc; simpl in *; intros [= <-]; lia].
    apply digit_value_range in E. apply IH. simpl. lia.
Qed.

Lemma has_dash_app (a b : string) : has_dash (a +:+ b) = has_dash a || has_dash b.
Proof. induction a as [|c a IH]; [reflexivity|]. rewrite sapp_cons. simpl. rewrite IH. apply orb_assoc. Qed.

Lemma has_dash_pretty_N_go (x : N) : has_dash (pretty_N_go x "") = false.
Proof.
  induction (N.lt_wf_0 x) as [x _ IH].
  destruct (decide (x = 0%N)) as [->|Hx]; [reflexivity|].
  rewrite pretty_N_go_step by lia. rewrite pretty_N_go_app, has_dash_app, IH by (apply N.div_lt; lia).
  assert (Hm : (x `mod` 10 < 10)%N) by (apply N.mod_lt; lia).
  generalize dependent (x `mod` 10)%N. intros k Hk.
  assert (k = 0 \/ k = 1 \/ k = 2 \/ k = 3 \/ k = 4 \/ k = 5 \/ k = 6 \/ k = 7 \/ k = 8 \/ k = 9)%N
    as Hc by lia.
  repeat destruct Hc as [->|Hc]; try reflexivity. subst. reflexivity.
Qed.

Lemma has_dash_ToString (n : Z) : has_dash (ToString n) = false.
Proof.
  unfold ToString, pretty, pretty_N. case_decide; [reflexivity|]. apply has_dash_pretty_N_go.
Qed.

Lemma split_dash_go_app (a s cur : string) :
  has_dash a = false -> split_dash_go (a +:+ s) cur = split_dash_go s (cur +:+ a).
Proof.
  revert cur. induction a as [|c a IH]; intros cur Ha.
  - by rewrite sapp_nil_l, sapp_nil_r.
  - simpl in Ha. apply orb_false_iff in Ha as [Hc Ha].
    rewrite sapp_cons. simpl. rewrite Hc, IH by exact Ha. by rewrite sapp_assoc.
Qed.

Lemma split_dash_go_no_dash (s cur : string) :
  has_dash s = false -> split_dash_go s cur = [cur +:+ s].
Proof.
  intros Hs. rewrite <- (sapp_nil_r s) at 1. rewrite split_dash_go_app by exact Hs.
  reflexivity.
Qed.

Lemma split_dash_ToString_date (d : Date) (s : string) :
  has_dash s = false ->
  split_dash (ToString_date d +:+ s) = [ToString (year d); ToString (month d); ToString (day d) +:+ s].
Proof.
  intros Hs. unfold split_dash, ToString_date. rewrite !sapp_assoc.
  rewrite split_dash_go_app by apply has_dash_ToString. rewrite sapp_nil_l.
  rewrite sapp_cons, sapp_nil_l. cbn [split_dash_go]. simpl (Ascii.eqb _ _). cbv iota.
  rewrite split_dash_go_app by apply has_dash_ToString. rewrite sapp_nil_l.
  rewrite sapp_cons, sapp_nil_l. cbn [split_dash_go]. simpl (Ascii.eqb _ _). cbv iota.
  rewrite split_dash_go_no_dash by (rewrite has_dash_app, has_dash_ToString; exact Hs).
  reflexivity.
Qed.

Lemma ToInt_ToString_app (maxv n : Z) (s : string) :
  0 <= n -> digits_end s ->
  ToInt maxv (ToString n +:+ s) = if n <=? maxv then inr n else inl ConversionError.
Proof. intros Hn Hs. unfold ToInt. by rewrite digits_go_ToString. Qed.

(** [ToInt] reads back what [ToString] writes, also when other text that
    does not start with a digit follows; a value above the bound is
    rejected with a conversion error instead of wrapping around. *)
Theorem ToInt_ToString_roundtrip (maxv n : Z) (s : string) :
  0 <= n -> digits_end s ->
  (n <= maxv -> ToInt maxv (ToString n +:+ s) = inr n /\ ToInt maxv (ToString n) = inr n) /\
  (maxv < n -> ToInt maxv (ToString n +:+ s) = inl ConversionError).
Proof.
  intros Hn Hs. rewrite !ToInt_ToString_app by done. split.
  - intros Hle. rewrite <- (sapp_nil_r (ToString n)), ToInt_ToString_app by done.
    destruct (Z.leb_spec n maxv); [done|lia].
  - intros Hlt. destruct (Z.leb_spec n maxv); [lia|done].
Qed.

(** [ToInt] rejects an empty cell and a cell starting with a non-digit
    (a sign, a space, ...), and every value it returns lies in [0, maxv]. *)
Theorem ToInt_rejects_and_bounds (maxv : Z) (s : string) :
  (digits_end s -> ToInt maxv s = inl ConversionError) /\
  (forall v, ToInt maxv s = inr v -> 0 <= v <= maxv).
Proof.
  split.
  - destruct s as [|c s]; [reflexivity|]. simpl. unfold ToInt. simpl. intros ->. reflexivity.
  - intros v. unfold ToInt. destruct (digits_go s None) as [w|] eqn:E; [|discriminate].
    apply digits_go_nonneg in E; [|simpl; lia].
    destruct (Z.leb_spec w maxv); [|discriminate]. intros [= <-]. lia.
Qed.

Lemma last_day_le_31 (y m : Z) : last_day y m <= 31.
Proof. unfold last_day. repeat case_match; lia. Qed.

(** [ReadDate] reads back a valid date of the supported years written by
    [ToString] (the failure-date cell of [MakeParsedStatsRow]), also when a
    suffix without dashes and not starting with a digit (a time of day)
    follows the day. *)
Theorem ReadDate_ToString_date_roundtrip (d : Date) (s : string) :
  kFirstYear <= year d <= kLastYear -> date_ok d = true ->
  has_dash s = false -> digits_end s ->
  ReadDate (ToString_date d +:+ s) = inr d.
Proof.
  intros Hy Hok Hs Hend. pose proof (last_day_le_31 (year d) (month d)) as H31.
  unfold date_ok in Hok. rewrite !andb_true_iff, !Z.leb_le in Hok.
  unfold ReadDate. rewrite split_dash_ToString_date by exact Hs.
  unfold UINT16_MAX, kFirstYear, kLastYear in *.
  rewrite <- (sapp_nil_r (ToString (year d))), ToInt_ToString_app by (simpl; first [exact I | lia]).
  destruct (Z.leb_spec (year d) 65535); [|lia].
  destruct (Z.ltb_spec (year d) 2013), (Z.ltb_spec 2023 (year d)); try lia. cbn [orb].
  rewrite <- (sapp_nil_r (ToString (month d))), ToInt_ToString_app by (simpl; first [exact I | lia]).
  unfold UINT8_MAX. destruct (Z.leb_spec (month d) 255); [|lia].
  rewrite ToInt_ToString_app by (try exact Hend; lia).
  destruct (Z.leb_spec (day d) 255); [|lia].
  destruct d as [y m dd]. unfold date_ok. simpl in *.
  replace ((1 <=? m) && (m <=? 12) && (1 <=? dd) && (dd <=? last_day y m)) with true; [reflexivity|].
  symmetry. rewrite !andb_true_iff, !Z.leb_le. lia.
Qed.

(** A date [ReadDate] accepts lies in the supported years and is a
    calendar date, so the counter index [ReadRawStats] computes from it is
    within the [kCounterCount] counters. *)
Theorem ReadDate_result_in_range (date_cell : string) (d : Date) :
  ReadDate date_cell = inr d ->
  kFirstYear <= year d <= kLastYear /\ date_ok d = true /\ (month_index d < kCounterCount)%nat.
Proof.
  unfold ReadDate. destruct (split_dash date_cell) as [|yy [|mm [|dd [|? ?]]]]; try discriminate.
  destruct (ToInt UINT16_MAX yy) as [|y]; [discriminate|].
  destruct (Z.ltb_spec y kFirstYear), (Z.ltb_spec kLastYear y); try discriminate. cbn [orb].
  destruct (ToInt UINT8_MAX mm) as [|m]; [discriminate|].
  destruct (ToInt UINT8_MAX dd) as [|da]; [discriminate|].
  destruct (date_ok (mkDate y m da)) eqn:Hok; [|discriminate]. intros [= <-].
  split; [simpl; lia|split; [exact Hok|]].
  unfold date_ok in Hok. rewrite !andb_true_iff, !Z.leb_le in Hok. simpl in Hok.
  unfold month_index, kCounterCount, kFirstYear, kLastYear, kMonthPerYear in *. simpl.
  apply Z2Nat.inj_lt; lia.
Qed.

(** ** Paths and output *)

Lemma last_dot_suffix_app (a b : string) :
  last_dot_suffix (a +:+ b) =
  match last_dot_suffix b with
  | Some x => Some x
  | None => (fun x => x +:+ b) <$> last_dot_suffix a
  end.
Proof.
  induction a as [|c a IH].
  - rewrite sapp_nil_l. by destruct (last_dot_suffix b).
  - rewrite sapp_cons. cbn [last_dot_suffix]. rewrite IH.
    destruct (last_dot_suffix b); [reflexivity|].
    destruct (last_dot_suffix a); [reflexivity|]. simpl.
    destruct (Ascii.eqb c "."); [|reflexivity]. cbn [fmap option_fmap option_map]. by rewrite sapp_cons.
Qed.

Lemma last_dot_suffix_none (s : string) :
  has_char "." s = false -> last_dot_suffix s = None.
Proof.
  induction s as [|c s IH]; [reflexivity|]. simpl. intros H.
  apply orb_false_iff in H as [Hc Hs]. rewrite IH by exact Hs. by rewrite Hc.
Qed.

Lemma has_char_app (c : ascii) (a b : string) : has_char c (a +:+ b) = has_char c a || has_char c b.
Proof. induction a as [|c' a IH]; [reflexivity|]. rewrite sapp_cons. simpl. rewrite IH. apply orb_assoc. Qed.

Lemma last_dot_suffix_Some (s x : string) :
  last_dot_suffix s = Some x -> exists pre, s = pre +:+ x.
Proof.
  revert x. induction s as [|c s IH]; intros x; [discriminate|]. simpl.
  destruct (last_dot_suffix s) as [y|].
  - intros [= <-]. destruct (IH y eq_refl) as [pre ->]. exists (String c pre). by rewrite sapp_cons.
  - destruct (Ascii.eqb c "."); [|discriminate]. intros [= <-]. exists EmptyString. by rewrite sapp_nil_l.
Qed.

Lemma last_slash_suffix_no_slash (s acc : string) :
  has_char "/" s = false -> last_slash_suffix s acc = acc +:+ s.
Proof.
  revert acc. induction s as [|c s IH]; intros acc H; simpl in *; [by rewrite sapp_nil_r|].
  apply orb_false_iff in H as [Hc Hs]. rewrite Hc, IH by exact Hs.
  by rewrite sapp_assoc, sapp_cons, sapp_nil_l.
Qed.

Lemma last_slash_suffix_slash (dir rest acc : string) :
  last_slash_suffix (dir +:+ String "/" rest) acc = last_slash_suffix rest EmptyString.
Proof.
  revert acc. induction dir as [|c dir IH]; intros acc.
  - rewrite sapp_nil_l. reflexivity.
  - rewrite sapp_cons. simpl. destruct (Ascii.eqb c "/"); apply IH.
Qed.

Lemma slash_decomp (s : string) :
  has_char "/" s = false \/ exists dir rest, s = dir +:+ String "/" rest /\ has_char "/" rest = false.
Proof.
  induction s as [|c s IH]; [by left|]. simpl.
  destruct IH as [H|(dir & rest & -> & H)].
  - destruct (Ascii.eqb c "/") eqn:Hc; [|left; by rewrite H].
    right. exists EmptyString, s. rewrite sapp_nil_l. apply Ascii.eqb_eq in Hc as ->. done.
  - right. exists (String c dir), rest. by rewrite sapp_cons.
Qed.

Lemma filename_cases (p : string) :
  (has_char "/" p = false /\ filename p = p) \/
  exists dir, p = dir +:+ String "/" (filename p) /\ has_char "/" (filename p) = false.
Proof.
  unfold filename. destruct (slash_decomp p) as [H|(dir & rest & -> & H)].
  - left. split; [done|]. by rewrite last_slash_suffix_no_slash, sapp_nil_l.
  - right. exists dir. rewrite last_slash_suffix_slash, last_slash_suffix_no_slash, sapp_nil_l by exact H.
    done.
Qed.

Lemma extension_csv_filename (p : string) :
  extension p = ".csv" <-> exists stem, stem <> EmptyString /\ filename p = stem +:+ ".csv".
Proof.
  unfold extension. set (fn := filename p). split.
  - destruct (String.eqb fn "." || String.eqb fn "..") eqn:Hdot; [discriminate|].
    destruct (last_dot_suffix fn) as [ext|] eqn:Hl; [|discriminate].
    destruct (String.eqb ext fn) eqn:He; [discriminate|]. intros ->.
    destruct (last_dot_suffix_Some _ _ Hl) as [pre Hpre]. exists pre. split; [|exact Hpre].
    intros ->. rewrite sapp_nil_l in Hpre. rewrite Hpre, String.eqb_refl in He. discriminate.
  - intros (stem & Hstem & Hfn). rewrite Hfn.
    assert (Hlen : (String.length (stem +:+ ".csv") >= 5)%nat).
    { rewrite slength_app. destruct stem; [done|]. simpl. lia. }
    replace (String.eqb (stem +:+ ".csv") "." || String.eqb (stem +:+ ".csv") "..") with false.
    2:{ symmetry. apply orb_false_iff. split; apply String.eqb_neq; intros Heq; rewrite Heq in Hlen; simpl in Hlen; lia. }
    rewrite last_dot_suffix_app. change (last_dot_suffix ".csv") with (Some ".csv"%string). cbv iota.
    replace (String.eqb ".csv" (stem +:+ ".csv")) with false; [reflexivity|].
    symmetry. apply String.eqb_neq. intros Heq. apply (f_equal String.length) in Heq.
    rewrite slength_app in Heq. destruct stem; [done|]. simpl in Heq. lia.
Qed.

(** The work queue hands out exactly the paths whose last component is a
    non-empty stem followed by [.csv] (case-sensitive): [.csv] alone, a
    directory entry ending in a slash or [data.CSV] are skipped. *)
Theorem get_next_file_path_accepts (p : string) :
  String.eqb (extension p) ".csv" = true <->
  exists stem, stem <> EmptyString /\ has_char "/" stem = false /\
    (p = stem +:+ ".csv" \/ exists dir, p = dir +:+ String "/" (stem +:+ ".csv")).
Proof.
  rewrite String.eqb_eq, extension_csv_filename. split.
  - intros (stem & Hs & Hfn).
    assert (Hslash : has_char "/" (filename p) = false -> has_char "/" stem = false).
    { rewrite Hfn, has_char_app. by intros [? _]%orb_false_iff. }
    exists stem. split; [exact Hs|].
    destruct (filename_cases p) as [[Hp Hf]|(dir & Hp & Hf)].
    + split; [apply Hslash; by rewrite Hf|]. left. by rewrite <- Hf.
    + split; [by apply Hslash|]. right. exists dir. by rewrite <- Hfn.
  - intros (stem & Hs & Hsl & [->|(dir & ->)]); exists stem; split; try exact Hs;
      unfold filename; [rewrite last_slash_suffix_no_slash|rewrite last_slash_suffix_slash, last_slash_suffix_no_slash];
      rewrite ?sapp_nil_l; try reflexivity; rewrite has_char_app, Hsl; reflexivity.
Qed.

Lemma list_map_lookup {A B} (f : A -> B) (l : list A) (i : nat) :
  List.map f l !! i = f <$> l !! i.
Proof. revert i. induction l as [|x l IH]; intros [|i]; simpl; auto. Qed.







Lemma NoDup_map_keyed {K A B} (g : K * A -> B) (l : list (K * A)) :
  NoDup l.*1 -> (forall x y, g x = g y -> x.1 = y.1) -> NoDup (List.map g l).
Proof.
  intros Hl Hg. induction l as [|x l IH]; [constructor|].
  cbn [List.map]. inversion Hl as [|? ? Hk Hl']; subst. constructor; [|by apply IH].
  intros Hin. apply list_elem_of_In, in_map_iff in Hin as (y & Heq & Hin).
  apply Hg in Heq. apply Hk. rewrite <- Heq. apply list_elem_of_In in Hin.
  apply (list_elem_of_fmap_2 fst) in Hin. exact Hin.
Qed.

Lemma NoDup_flat_map_keyed {K A B} (f : K * A -> list B) (key : B -> K) (l : list (K * A)) :
  NoDup l.*1 -> (forall x, NoDup (f x)) -> (forall x b, b ∈ f x -> key b = x.1) ->
  NoDup (List.flat_map f l).
Proof.
  intros Hl Hf Hkey. induction l as [|x l IH]; [constructor|].
  cbn [List.flat_map]. inversion Hl as [|? ? Hk Hl']; subst.
  apply NoDup_app. split; [apply Hf|]. split; [|by apply IH].
  intros b Hb Hb'. apply list_elem_of_In, in_flat_map in Hb' as (y & Hin & Hb').
  apply list_elem_of_In in Hb'. apply Hkey in Hb, Hb'. apply Hk.
  rewrite <- Hb, Hb'. apply list_elem_of_In in Hin. apply (list_elem_of_fmap_2 fst) in Hin. exact Hin.
Qed.

Lemma map_flat_map {A B C} (g : B -> C) (f : A -> list B) (l : list A) :
  List.map g (List.flat_map f l) = List.flat_map (fun x => List.map g (f x)) l.
Proof. induction l as [|x l IH]; [reflexivity|]. simpl. by rewrite map_app, IH. Qed.

(** The written document is the header followed by exactly one row per
    (model, serial number) pair of the map, each built by
    [MakeParsedStatsRow], with no pair repeated; a model without drives
    gives no row. *)
Theorem WriteParsedStats_one_row_per_drive (map : ModelMap) :
  head (WriteParsedStats map) = Some MakeParsedStatsHeader /\
  (forall row, row ∈ tail (WriteParsedStats map) <->
     exists model_name model_stats serial_number drive_stats,
       map !! model_name = Some model_stats /\
       drives model_stats !! serial_number = Some drive_stats /\
       row = MakeParsedStatsRow model_name model_stats serial_number drive_stats) /\
  NoDup (List.map (take 2) (tail (WriteParsedStats map))).
Proof.
  split; [reflexivity|]. split.
  - intros row. cbn [tail WriteParsedStats]. rewrite list_elem_of_In, in_flat_map. split.
    + intros ([m ms] & Hm & Hrow). apply in_map_iff in Hrow as ([sn ds] & <- & Hsn).
      apply list_elem_of_In, elem_of_map_to_list in Hm, Hsn. eauto 10.
    + intros (m & ms & sn & ds & Hm & Hsn & ->). exists (m, ms). split.
      * by apply list_elem_of_In, elem_of_map_to_list.
      * apply in_map_iff. exists (sn, ds). split; [reflexivity|].
        by apply list_elem_of_In, elem_of_map_to_list.
  - cbn [tail WriteParsedStats]. rewrite map_flat_map.
    apply (NoDup_flat_map_keyed _ (fun b => default "" (head b))).
    + apply NoDup_fst_map_to_list.
    + intros [m ms]. rewrite map_map. apply NoDup_map_keyed.
      * apply NoDup_fst_map_to_list.
      * intros [k a] [k' a']. cbn. congruence.
    + intros [m ms] b. rewrite map_map. intros Hb.
      apply list_elem_of_In, in_map_iff in Hb as ([sn ds] & <- & _). reflexivity.
Qed.

(** ** Counting in [ParseRawStats] *)

Definition Inv (s : ModelMap) (rows : list Row) : Prop :=
  forall m sn, counters_of s m sn = expected_counters rows m sn.

Lemma count_vector_nil (rows : list Row) m sn :
  drive_rows rows m sn = [] -> count_vector rows m sn = replicate kCounterCount 0.
Proof.
  intros H. unfold count_vector. rewrite H. apply list_eq. intros j.
  rewrite list_map_lookup.
  destruct (decide (j < kCounterCount)%nat).
  - rewrite lookup_seq_lt, lookup_replicate_2 by done. reflexivity.
  - rewrite lookup_seq_ge by lia. symmetry. apply lookup_replicate_None. lia.
Qed.

Lemma drive_rows_app (R1 R2 : list Row) m sn :
  drive_rows (R1 ++ R2) m sn = drive_rows R1 m sn ++ drive_rows R2 m sn.
Proof. apply filter_app. Qed.

Lemma count_vector_ext (R1 R2 : list Row) m sn :
  drive_rows R1 m sn = drive_rows R2 m sn -> count_vector R1 m sn = count_vector R2 m sn.
Proof. intros H. unfold count_vector. by rewrite H. Qed.

Lemma length_count_vector (rows : list Row) m sn : length (count_vector rows m sn) = kCounterCount.
Proof. unfold count_vector. by rewrite length_map, length_seq. Qed.

Lemma count_vector_range (rows : list Row) m sn :
  Forall (fun n => 0 <= n < UINT64_MOD) (count_vector rows m sn).
Proof.
  unfold count_vector. apply Forall_forall. intros x Hx. apply list_elem_of_In, in_map_iff in Hx as (i & <- & _).
  apply Z.mod_pos_bound. reflexivity.
Qed.

Lemma drive_rows_snoc_self (R : list Row) (r : Row) :
  drive_rows (R ++ [r]) (ReadId (r_model r)) (ReadId (r_serial_number r)) =
  drive_rows R (ReadId (r_model r)) (ReadId (r_serial_number r)) ++ [r].
Proof.
  rewrite drive_rows_app. unfold drive_rows at 2. by rewrite filter_cons_True, filter_nil.
Qed.

Lemma count_vector_snoc_self (R : list Row) (r : Row) (i : nat) :
  row_month r = Some i ->
  count_vector (R ++ [r]) (ReadId (r_model r)) (ReadId (r_serial_number r)) =
  alter (fun n => (n + 1) mod UINT64_MOD) i
        (count_vector R (ReadId (r_model r)) (ReadId (r_serial_number r))).
Proof.
  intros Hi. apply list_eq. intros j. unfold count_vector.
  rewrite drive_rows_snoc_self.
  destruct (decide (i = j)) as [<-|Hne].
  - rewrite list_lookup_alter_eq, !list_map_lookup.
    destruct (seq 0 kCounterCount !! i) as [k|] eqn:Hk; [|reflexivity].
    apply lookup_seq in Hk as [-> _]. cbn [fmap option_fmap option_map].
    rewrite filter_app, length_app.
    rewrite filter_cons_True, filter_nil by (rewrite Hi; reflexivity). simpl length. f_equal.
    rewrite Zplus_mod_idemp_l. f_equal. lia.
  - rewrite list_lookup_alter_ne by done. rewrite !list_map_lookup.
    destruct (seq 0 kCounterCount !! j) as [k|] eqn:Hk; [|reflexivity].
    apply lookup_seq in Hk as [-> _]. cbn [fmap option_fmap option_map].
    rewrite filter_app, length_app.
    rewrite filter_cons_False, filter_nil by (rewrite Hi; intros [= ?]; lia). simpl length.
    rewrite Nat.add_0_r. reflexivity.
Qed.

Lemma drive_rows_snoc_other (R : list Row) (r : Row) m sn :
  ~ (m = ReadId (r_model r) /\ sn = ReadId (r_serial_number r)) ->
  drive_rows (R ++ [r]) m sn = drive_rows R m sn.
Proof.
  intros Hne. rewrite drive_rows_app. unfold drive_rows at 2.
  rewrite filter_cons_False, filter_nil by (intros [? ?]; apply Hne; auto). apply app_nil_r.
Qed.

Lemma add_counters_map {A} (f g : A -> Z) (l : list A) :
  add_counters (List.map f l) (List.map g l) = List.map (fun x => (f x + g x) mod UINT64_MOD) l.
Proof. induction l as [|x l IH]; [reflexivity|]. simpl. by rewrite IH. Qed.

Lemma count_vector_app (R1 R2 : list Row) m sn :
  count_vector (R1 ++ R2) m sn = add_counters (count_vector R1 m sn) (count_vector R2 m sn).
Proof.
  unfold count_vector. rewrite add_counters_map. apply map_ext. intros i.
  rewrite drive_rows_app, filter_app, length_app, Nat2Z.inj_add. apply Zplus_mod.
Qed.

Lemma clean_row_step (r : Row) (s : ModelMap) :
  row_clean r = true ->
  (ReadRawStatsRow r s).2 = inr tt /\
  (exists d, ReadDate (r_date r) = inr d /\
     counters_of (ReadRawStatsRow r s).1 (ReadId (r_model r)) (ReadId (r_serial_number r)) =
     Some (alter (fun n => (n + 1) mod UINT64_MOD) (month_index d)
                 (default (replicate kCounterCount 0)
                          (counters_of s (ReadId (r_model r)) (ReadId (r_serial_number r)))))) /\
  (forall m sn, ~ (m = ReadId (r_model r) /\ sn = ReadId (r_serial_number r)) ->
     counters_of (ReadRawStatsRow r s).1 m sn = counters_of s m sn).
Proof.
  unfold row_clean.
  destruct (r_capacity_bytes r) as [raw|] eqn:Hc; [|discriminate].
  destruct (read_power_on_hour (r_smart_9_raw r)) as [|p] eqn:Hp; [discriminate|].
  destruct (ReadDate (r_date r)) as [|d] eqn:Hd; [discriminate|].
  destruct (r_failure r) as [f|] eqn:Hf; [|discriminate]. intros _.
  split; [|split].
  - rewrite ReadRawStatsRow_result, Hc, Hp, Hd, Hf.
    by destruct (lookup_drive s _ _).
  - exists d. split; [reflexivity|]. unfold counters_of.
    rewrite ReadRawStatsRow_lookup_self, Hc, Hd, Hf. unfold emplaced_drive. rewrite Hp.
    destruct (lookup_drive s _ _) as [ds0|]; cbn [mbind option_bind fmap option_fmap option_map default];
      destruct (Z.eqb f 0); rewrite ?UpdateFailureDate_drive_day; reflexivity.
  - intros m sn Hne. unfold counters_of. by rewrite ReadRawStatsRow_lookup_other.
Qed.

Lemma Inv_row (r : Row) (s : ModelMap) (R : list Row) :
  row_clean r = true -> Inv s R ->
  (ReadRawStatsRow r s).2 = inr tt /\ Inv (ReadRawStatsRow r s).1 (R ++ [r]).
Proof.
  intros Hr HI. destruct (clean_row_step r s Hr) as (Hok & (d & Hd & Hself) & Hother).
  split; [exact Hok|]. intros m sn.
  destruct (decide (m = ReadId (r_model r) /\ sn = ReadId (r_serial_number r))) as [[-> ->]|Hne].
  - rewrite Hself, HI. unfold expected_counters. rewrite drive_rows_snoc_self.
    rewrite (count_vector_snoc_self R r (month_index d)) by (unfold row_month; by rewrite Hd).
    destruct (drive_rows R _ _) eqn:E.
    + cbn [app default]. rewrite count_vector_nil by exact E. reflexivity.
    + reflexivity.
  - rewrite Hother by exact Hne. rewrite HI. unfold expected_counters.
    rewrite drive_rows_snoc_other by exact Hne.
    destruct (drive_rows R m sn) eqn:E; [reflexivity|].
    f_equal. apply count_vector_ext. by rewrite drive_rows_snoc_other.
Qed.

Lemma Inv_ReadRows (rows : list Row) (s : ModelMap) (R : list Row) :
  forallb row_clean rows = true -> Inv s R ->
  (ReadRows rows s).2 = inr tt /\ Inv (ReadRows rows s).1 (R ++ rows).
Proof.
  revert s R. induction rows as [|r rows IH]; intros s R Hc HI.
  - split; [reflexivity|]. by rewrite app_nil_r.
  - simpl in Hc. apply andb_true_iff in Hc as [Hr Hc].
    rewrite ReadRows_cons. destruct (Inv_row r s R Hr HI) as [Hok HI'].
    destruct (ReadRawStatsRow r s) as [s1 res]. cbn [fst snd] in Hok, HI'. subst res.
    replace (R ++ r :: rows) with ((R ++ [r]) ++ rows) by (by rewrite <- app_assoc).
    by apply IH.
Qed.

Lemma Inv_worker (files : list (option (list Row))) (s : ModelMap) (R : list Row) :
  Forall (fun f => forallb row_clean (default [] f) = true) files -> Inv s R ->
  Inv (worker files s) (R ++ List.flat_map (default []) files).
Proof.
  revert s R. induction files as [|f fs IH]; intros s R Hc HI.
  - by rewrite app_nil_r.
  - inversion Hc as [|? ? Hf Hfs]; subst. cbn [worker List.flat_map].
    rewrite app_assoc. apply IH; [exact Hfs|].
    destruct f as [rows|].
    + apply (Inv_ReadRows rows s R Hf HI).
    + rewrite app_nil_r. exact HI.
Qed.

Lemma Inv_merge (a b : ModelMap) (R1 R2 : list Row) :
  Inv a R1 -> Inv b R2 -> Inv (MergeParsedStats a b) (R1 ++ R2).
Proof.
  intros Ha Hb m sn. specialize (Ha m sn). specialize (Hb m sn).
  unfold counters_of in *. rewrite lookup_drive_merge. unfold expected_counters in *.
  rewrite drive_rows_app.
  destruct (lookup_drive b m sn) as [ods|]; cbn [fmap option_fmap option_map] in Hb |- *.
  - destruct (drive_rows R2 m sn) eqn:E2; [discriminate|]. injection Hb as Hb.
    rewrite merge_drive_day, Hb, count_vector_app.
    destruct (lookup_drive a m sn) as [ds|]; cbn [fmap option_fmap option_map default] in Ha |- *;
      destruct (drive_rows R1 m sn) eqn:E1; try discriminate; cbn [app].
    + injection Ha as ->. reflexivity.
    + rewrite (count_vector_nil R1) by exact E1. reflexivity.
  - destruct (drive_rows R2 m sn) eqn:E2; [|discriminate]. rewrite app_nil_r, Ha.
    destruct (drive_rows R1 m sn) eqn:E1; [reflexivity|].
    f_equal. apply count_vector_ext. by rewrite drive_rows_app, E2, app_nil_r.
Qed.

Lemma Inv_empty : Inv ∅ [].
Proof. intros m sn. reflexivity. Qed.

Lemma Inv_foldl (acc : ModelMap) (R : list Row) (stores : list ModelMap) (Rs : list (list Row)) :
  Inv acc R -> Forall2 Inv stores Rs -> Inv (foldl MergeParsedStats acc stores) (R ++ concat Rs).
Proof.
  intros HI Hall. revert acc R HI.
  induction Hall as [|x y xs ys Hxy _ IH]; intros acc R HI.
  - by rewrite app_nil_r.
  - cbn [foldl concat]. rewrite app_assoc. apply IH. by apply Inv_merge.
Qed.

Lemma expected_counters_perm (R1 R2 : list Row) m sn :
  R1 ≡ₚ R2 -> expected_counters R1 m sn = expected_counters R2 m sn.
Proof.
  intros HP. assert (HD : drive_rows R1 m sn ≡ₚ drive_rows R2 m sn) by (unfold drive_rows; by rewrite HP).
  unfold expected_counters.
  destruct (drive_rows R1 m sn) eqn:E1, (drive_rows R2 m sn) eqn:E2; try reflexivity.
  - by apply Permutation_nil_cons in HD.
  - symmetry in HD. by apply Permutation_nil_cons in HD.
  - f_equal. unfold count_vector. apply map_ext. intros i. f_equal. f_equal.
    apply Permutation_length. by rewrite E1, E2, HD.
Qed.

Lemma flat_map_default_map (read : string -> option (list Row)) (paths : list string) :
  List.flat_map (default []) (List.map read paths) = file_rows read paths.
Proof. induction paths as [|p ps IH]; [reflexivity|]. simpl. by rewrite IH. Qed.

Lemma file_rows_concat (read : string -> option (list Row)) (assignment : list (list string)) :
  concat (List.map (fun paths => file_rows read paths) assignment) = file_rows read (concat assignment).
Proof.
  induction assignment as [|ps a IH]; [reflexivity|]. simpl. rewrite IH. unfold file_rows.
  by rewrite flat_map_app.
Qed.

(** When every row of every [.csv] file converts, the counters
    [ParseRawStats] computes for a drive are, for each month, the number
    of rows of that drive dated in that month (modulo 2^64), and the drive
    is absent when no row names it, whatever the assignment of the files
    to the workers. *)
Theorem ParseRawStats_counters (read : string -> option (list Row)) (it : list string)
    (assignment : list (list string)) (m sn : string) :
  concat assignment ≡ₚ csv_paths it ->
  forallb (fun p => forallb row_clean (default [] (read p))) (csv_paths it) = true ->
  counters_of (ParseRawStats read assignment) m sn =
  expected_counters (file_rows read (csv_paths it)) m sn.
Proof.
  intros HP Hclean.
  assert (Hc : forall p, p ∈ concat assignment -> forallb row_clean (default [] (read p)) = true).
  { intros p Hp. rewrite HP in Hp. apply list_elem_of_In in Hp.
    apply forallb_forall with (x := p) in Hclean; [exact Hclean|exact Hp]. }
  unfold ParseRawStats, reduce.
  rewrite <- (expected_counters_perm (file_rows read (concat assignment)))
    by (unfold file_rows; by apply Permutation_flat_map).
  change (file_rows read (concat assignment)) with ([] ++ file_rows read (concat assignment)).
  rewrite <- file_rows_concat. revert m sn. apply Inv_foldl; [apply Inv_empty|].
  clear HP Hclean. induction assignment as [|ps a IH]; [constructor|].
  constructor.
  - assert (Hf : Forall (fun f => forallb row_clean (default [] f) = true) (List.map read ps)).
    { apply Forall_forall. intros f Hf. apply list_elem_of_In, in_map_iff in Hf as (p & <- & Hp).
      apply Hc. apply list_elem_of_In. apply in_or_app. by left. }
    pose proof (Inv_worker (List.map read ps) ∅ [] Hf Inv_empty) as H.
    rewrite flat_map_default_map in H. exact H.
  - apply IH. intros p Hp. apply Hc. cbn [concat]. apply list_elem_of_In.
    apply in_or_app. right. by apply list_elem_of_In.
Qed.

(** Whatever the files and their assignment to workers, every drive of the
    result of [ParseRawStats] has [kCounterCount] counters, each a
    [uint64_t]. *)
Theorem ParseRawStats_wf (read : string -> option (list Row)) (assignment : list (list string)) :
  wf_store (ParseRawStats read assignment).
Proof.
  apply wf_reduce. apply Forall_forall. intros s Hs. apply list_elem_of_In, in_map_iff in Hs as (ps & <- & _).
  apply wf_worker, wf_store_empty.
Qed.

(** ** Further properties *)

(** A counter cell of [MakeParsedStatsRow] is empty exactly for a zero
    counter, and [ToInt] reads a non-zero counter back. *)
Theorem counter_cell_roundtrip (n : Z) :
  0 <= n <= UINT64_MAX ->
  (counter_cell n = EmptyString <-> n = 0) /\
  (n <> 0 -> ToInt UINT64_MAX (counter_cell n) = inr n).
Proof.
  intros Hn. unfold counter_cell. split.
  - destruct (Z.eqb_spec n 0); [done|]. split; [|done].
    unfold ToString, pretty, pretty_N. case_decide; [discriminate|].
    rewrite pretty_N_go_step by lia. rewrite pretty_N_go_app.
    destruct (pretty_N_go _ _); discriminate.
  - intros Hne. destruct (Z.eqb_spec n 0); [done|].
    rewrite <- (sapp_nil_r (ToString n)), ToInt_ToString_app by (done || lia).
    destruct (Z.leb_spec n UINT64_MAX); [done|lia].
Qed.

Lemma counter_cell_roundtrip_witness :
  0 <= 7 <= UINT64_MAX /\
  (counter_cell 7 = EmptyString <-> 7 = 0) /\ (7 <> 0 -> ToInt UINT64_MAX (counter_cell 7) = inr 7).
Proof.
  split; [unfold UINT64_MAX, UINT64_MOD; lia|].
  apply counter_cell_roundtrip. unfold UINT64_MAX, UINT64_MOD; lia.
Defined.

Lemma ToInt_ToString_roundtrip_witness :
  (0 <= 42 /\ digits_end " kB") /\
  (42 <= UINT8_MAX -> ToInt UINT8_MAX (ToString 42 +:+ " kB") = inr 42 /\ ToInt UINT8_MAX (ToString 42) = inr 42) /\
  (UINT8_MAX < 42 -> ToInt UINT8_MAX (ToString 42 +:+ " kB") = inl ConversionError).
Proof.
  split; [split; [lia|reflexivity]|].
  apply (ToInt_ToString_roundtrip UINT8_MAX 42 " kB"); [lia|reflexivity].
Defined.

Lemma ReadDate_ToString_date_roundtrip_witness :
  (kFirstYear <= year (mkDate 2020 2 29) <= kLastYear /\ date_ok (mkDate 2020 2 29) = true /\
   has_dash " 00:00:00" = false /\ digits_end " 00:00:00") /\
  ReadDate (ToString_date (mkDate 2020 2 29) +:+ " 00:00:00") = inr (mkDate 2020 2 29).
Proof.
  assert (H : kFirstYear <= year (mkDate 2020 2 29) <= kLastYear) by (unfold kFirstYear, kLastYear; simpl; lia).
  split; [split; [exact H|split; [reflexivity|split; reflexivity]]|].
  apply ReadDate_ToString_date_roundtrip; [exact H|reflexivity|reflexivity|reflexivity].
Defined.

Lemma ReadDate_result_in_range_witness :
  ReadDate "2023-12-31" = inr (mkDate 2023 12 31) /\
  (kFirstYear <= year (mkDate 2023 12 31) <= kLastYear /\ date_ok (mkDate 2023 12 31) = true /\
   (month_index (mkDate 2023 12 31) < kCounterCount)%nat).
Proof.
  assert (H : ReadDate "2023-12-31" = inr (mkDate 2023 12 31)) by (vm_compute; reflexivity).
  split; [exact H|]. exact (ReadDate_result_in_range "2023-12-31" (mkDate 2023 12 31) H).
Defined.

Definition example_read (p : string) : option (list Row) :=
  if String.eqb p "data/2020_q1.csv" then
    Some [sample_row "ST4000DM000" "Z300" "2020-03-01" 4000787030016 "100" 0;
          sample_row "ST4000DM000" "Z300" "2020-03-02" 4000787030016 "124" 0]
  else if String.eqb p "data/2021_q1.csv" then
    Some [sample_row "ST4000DM000" "Z300" "2021-01-05" 4000787030016 "9000" 1]
  else None.

Definition example_paths : list string := ["data/2020_q1.csv"; "data/notes.txt"; "data/2021_q1.csv"].

Lemma ParseRawStats_counters_witness :
  (concat [["data/2021_q1.csv"]; ["data/2020_q1.csv"]] ≡ₚ csv_paths example_paths /\
   forallb (fun p => forallb row_clean (default [] (example_read p))) (csv_paths example_paths) = true) /\
  counters_of (ParseRawStats example_read [["data/2021_q1.csv"]; ["data/2020_q1.csv"]]) "ST4000DM000" "Z300" =
  expected_counters (file_rows example_read (csv_paths example_paths)) "ST4000DM000" "Z300".
Proof.
  assert (HP : concat [["data/2021_q1.csv"]; ["data/2020_q1.csv"]] ≡ₚ csv_paths example_paths)
    by (vm_compute; apply perm_swap).
  assert (HC : forallb (fun p => forallb row_clean (default [] (example_read p))) (csv_paths example_paths) = true)
    by (vm_compute; reflexivity).
  split; [split; [exact HP|exact HC]|].
  exact (ParseRawStats_counters example_read example_paths _ "ST4000DM000" "Z300" HP HC).
Defined.

(** A row whose cells all convert is folded without error: the counter of
    its drive at the month of its date goes up by one (modulo 2^64), the
    drive starting from zero counters if new, and no other drive's
    counters change. *)
Theorem ReadRawStatsRow_clean_row (r : Row) (s : ModelMap) :
  row_clean r = true ->
  (ReadRawStatsRow r s).2 = inr tt /\
  (exists d, ReadDate (r_date r) = inr d /\
     counters_of (ReadRawStatsRow r s).1 (ReadId (r_model r)) (ReadId (r_serial_number r)) =
     Some (alter (fun n => (n + 1) mod UINT64_MOD) (month_index d)
                 (default (replicate kCounterCount 0)
                          (counters_of s (ReadId (r_model r)) (ReadId (r_serial_number r)))))) /\
  (forall m sn, ~ (m = ReadId (r_model r) /\ sn = ReadId (r_serial_number r)) ->
     counters_of (ReadRawStatsRow r s).1 m sn = counters_of s m sn).
Proof. apply clean_row_step. Qed.

Definition example_row : Row := sample_row " ST4000DM000" "Z300 " "2020-03-01" 4000787030016 "" 1.

Lemma ReadRawStatsRow_clean_row_witness :
  row_clean example_row = true /\
  (ReadRawStatsRow example_row ∅).2 = inr tt /\
  (exists d, ReadDate (r_date example_row) = inr d /\
     counters_of (ReadRawStatsRow example_row ∅).1 (ReadId (r_model example_row)) (ReadId (r_serial_number example_row)) =
     Some (alter (fun n => (n + 1) mod UINT64_MOD) (month_index d)
                 (default (replicate kCounterCount 0)
                          (counters_of ∅ (ReadId (r_model example_row)) (ReadId (r_serial_number example_row)))))) /\
  (forall m sn, ~ (m = ReadId (r_model example_row) /\ sn = ReadId (r_serial_number example_row)) ->
     counters_of (ReadRawStatsRow example_row ∅).1 m sn = counters_of ∅ m sn).
Proof.
  assert (H : row_clean example_row = true) by (vm_compute; reflexivity).
  split; [exact H|]. exact (ReadRawStatsRow_clean_row example_row ∅ H).
Defined.

Definition example_store (rows : list Row) : ModelMap := (ReadRows rows ∅).1.

Lemma wf_example_store (rows : list Row) : wf_store (example_store rows).
Proof. apply wf_ReadRows, wf_store_empty. Qed.

(** [MergeParsedStats] is associative on well-formed maps, so the order in
    which the per-worker maps are grouped does not matter. *)
Theorem MergeParsedStats_associative (A B C : ModelMap) :
  wf_store B -> wf_store C ->
  MergeParsedStats (MergeParsedStats A B) C = MergeParsedStats A (MergeParsedStats B C).
Proof. apply MergeParsedStats_assoc. Qed.

Definition example_store_A : ModelMap :=
  example_store [sample_row "M" "S1" "2020-03-01" 4000787030016 "" 1].
Definition example_store_B : ModelMap :=
  example_store [sample_row "M" "S1" "2020-01-05" 8001563222016 "" 1].
Definition example_store_C : ModelMap :=
  example_store [sample_row "M" "S2" "2021-03-01" 4000787030016 "7" 0].

Lemma MergeParsedStats_associative_witness :
  (wf_store example_store_B /\ wf_store example_store_C) /\
  MergeParsedStats (MergeParsedStats example_store_A example_store_B) example_store_C =
  MergeParsedStats example_store_A (MergeParsedStats example_store_B example_store_C).
Proof.
  split; [split; apply wf_example_store|].
  apply MergeParsedStats_associative; apply wf_example_store.
Defined.

(** The empty map is a unit of [MergeParsedStats]: merging it in changes
    nothing, and merging a well-formed map into it gives that map. *)
Theorem MergeParsedStats_identity (A B : ModelMap) :
  wf_store B -> MergeParsedStats A ∅ = A /\ MergeParsedStats ∅ B = B.
Proof. intros HB. split; [apply MergeParsedStats_empty_r|by apply MergeParsedStats_empty_l]. Qed.

Lemma MergeParsedStats_identity_witness :
  wf_store example_store_B /\
  MergeParsedStats example_store_A ∅ = example_store_A /\ MergeParsedStats ∅ example_store_B = example_store_B.
Proof.
  split; [apply wf_example_store|]. apply MergeParsedStats_identity, wf_example_store.
Defined.

Lemma reduce_app_witness :
  Forall wf_store [example_store_B; example_store_C] /\
  reduce ([example_store_A] ++ [example_store_B; example_store_C]) =
  MergeParsedStats (reduce [example_store_A]) (reduce [example_store_B; example_store_C]).
Proof.
  assert (H : Forall wf_store [example_store_B; example_store_C])
    by (constructor; [apply wf_example_store|constructor; [apply wf_example_store|constructor]]).
  split; [exact H|]. exact (reduce_app [example_store_A] _ H).
Defined.
